(** * Sidekick server: request pipeline

    A shallow embedding of the Python server under [sidekick-server/]:
    the completion cache ([utils/cache.py]), the sliding-window rate
    limiter ([utils/rate_limiter.py]), the metrics tracker
    ([utils/metrics.py]), the output cleaner and the two request
    pipelines ([services/completion.py], [services/modification.py]) and
    the SDK client wrapper ([services/claude_client.py]).

    Modelling conventions.
    - A Python [str] is a [string]; the model interprets 7-bit ASCII
      text (characters above 127 are neither whitespace, nor word
      characters, nor letters with a case).
    - A Python [int] is a [Z].  A Python [float] holding a clock reading
      or a duration is a rational [Q].  In the cache and the limiter
      the differences and comparisons of clock readings are the
      mathematical ones.  The sum, the quotients and the product of
      the metrics snapshot are rounded to binary64
      ([get_metrics_float], [binary64]).
    - A Python [dict] is an association list in insertion order with
      unique keys ([dict_lookup], [dict_store], [dict_del]).
    - [time.time() * 1000] is an explicit argument [now] of the methods
      of the cache and of the limiter; the pipelines read it from a
      clock oracle through the monad [M].
    - Logging is not modelled. *)

From Stdlib Require Import ZArith QArith Qround Qabs Qpower.
From Stdlib Require Import List String Ascii Bool Lia Lqa.
From Stdlib Require Import DecimalString.
Import ListNotations.

Open Scope string_scope.
Open Scope Z_scope.

(* ------------------------------------------------------------------ *)
(** * Python values and builtins *)
(* ------------------------------------------------------------------ *)

(** Truth value of a [str]: the empty string is falsy. *)
Definition str_truthy (s : string) : bool :=
  match s with
  | EmptyString => false
  | String _ _ => true
  end.

(** Truth value of an [Optional[str]]: [None] and [""] are falsy. *)
Definition opt_str_truthy (o : option string) : bool :=
  match o with
  | None => false
  | Some s => str_truthy s
  end.

(** [a or b] on strings. *)
Definition str_or (a b : string) : string :=
  if str_truthy a then a else b.

(** [len(s)] as a Python [int]. *)
Definition len (s : string) : Z := Z.of_nat (String.length s).

(** [s[:n]] for a literal [n >= 0]. *)
Definition str_head (n : nat) (s : string) : string := substring 0 n s.

(** [s[-n:]] for a literal [n > 0]. *)
Definition str_tail (n : nat) (s : string) : string :=
  substring (String.length s - n) n s.

(** [str(z)] for an [int]. *)
Definition str_of_int (z : Z) : string := NilZero.string_of_int (Z.to_int z).

(** Comparisons on clock readings and durations. *)
Definition Qltb (x y : Q) : bool := negb (Qle_bool y x).

(** The line feed character and the one-character string ["\n"]. *)
Definition LF : ascii := "010"%char.
Definition nl : string := String LF EmptyString.

(* ------------------------------------------------------------------ *)
(** * Python dictionaries with string keys *)
(* ------------------------------------------------------------------ *)

Section Dict.
Context {V : Type}.

Definition dict := list (string * V).

(** [d.get(k)] *)
Fixpoint dict_lookup (d : dict) (k : string) : option V :=
  match d with
  | [] => None
  | (k', v) :: rest => if String.eqb k k' then Some v else dict_lookup rest k
  end.

(** [d[k] = v]: an existing key keeps its position, a new key goes last. *)
Fixpoint dict_store (d : dict) (k : string) (v : V) : dict :=
  match d with
  | [] => [(k, v)]
  | (k', v') :: rest =>
      if String.eqb k k' then (k', v) :: rest
      else (k', v') :: dict_store rest k v
  end.

(** [del d[k]]; the callers only delete keys that are present. *)
Fixpoint dict_del (d : dict) (k : string) : dict :=
  match d with
  | [] => []
  | (k', v') :: rest =>
      if String.eqb k k' then rest else (k', v') :: dict_del rest k
  end.

Definition dict_keys (d : dict) : list string := map fst d.

(** [len(d)] *)
Definition dict_len (d : dict) : Z := Z.of_nat (List.length d).
End Dict.

Arguments dict V : clear implicits.

(* ------------------------------------------------------------------ *)
(** * models/request.py, models/response.py *)
(* ------------------------------------------------------------------ *)

Record CompletionRequest := mkCompletionRequest {
  prefix : string;
  suffix : string;
  language : string;
  filename : option string;
  model : string;              (* Literal["haiku", "sonnet"] *)
  max_tokens : option Z;
  multiline : bool
}.

Record ModifyRequest := mkModifyRequest {
  m_code : string;
  m_instruction : string;
  m_language : string;
  m_filename : option string;
  m_model : string;            (* Literal["haiku", "sonnet", "opus"] *)
  m_prefix : string;
  m_suffix : string
}.

Record CompletionResponse := mkCompletionResponse {
  completion : string;
  error : option string;
  requestId : option string
}.

Record ModifyResponse := mkModifyResponse {
  modified_code : string;
  m_error : option string;
  m_requestId : option string
}.

(* ------------------------------------------------------------------ *)
(** * utils/cache.py *)
(* ------------------------------------------------------------------ *)

Module Cache.

Record CacheEntry := mkCacheEntry {
  response : CompletionResponse;
  timestamp : Q
}.

Record CompletionCache := mkCompletionCache {
  _cache : dict CacheEntry;
  _ttl_ms : Z;
  _max_size : Z
}.

(** [CompletionCache(ttl_ms, max_size)] *)
Definition init (ttl_ms max_size : Z) : CompletionCache :=
  mkCompletionCache [] ttl_ms max_size.

Definition with_cache (c : CompletionCache) (d : dict CacheEntry)
  : CompletionCache :=
  mkCompletionCache d (_ttl_ms c) (_max_size c).

Definition _hash_key (req : CompletionRequest) : string :=
  let prefix_tail :=
    if 500 <? len (prefix req) then str_tail 500 (prefix req)
    else prefix req in
  let suffix_head := str_head 200 (str_or (suffix req) "") in
  let model := str_or (model req) "haiku" in
  language req ++ ":" ++ model ++ ":" ++ prefix_tail ++ ":" ++ suffix_head.

(** [get]: the result and the cache afterwards. *)
Definition get (c : CompletionCache) (req : CompletionRequest) (now_ms : Q)
  : option CompletionResponse * CompletionCache :=
  let key := _hash_key req in
  match dict_lookup (_cache c) key with
  | None => (None, c)
  | Some entry =>
      if Qltb (inject_Z (_ttl_ms c)) (now_ms - timestamp entry)
      then (None, with_cache c (dict_del (_cache c) key))
      else (Some (response entry), c)
  end.

(** [entry.timestamp < oldest_time], where [None] stands for
    [float("inf")]. *)
Definition before (t : Q) (oldest_time : option Q) : bool :=
  match oldest_time with
  | None => true
  | Some o => Qltb t o
  end.

(** One iteration of the loop of [_find_oldest_entry] on the pair
    [(oldest_key, oldest_time)]. *)
Definition oldest_step (acc : option string * option Q)
           (item : string * CacheEntry) : option string * option Q :=
  if before (timestamp (snd item)) (snd acc)
  then (Some (fst item), Some (timestamp (snd item)))
  else acc.

Definition _find_oldest_entry (c : CompletionCache) : option string :=
  fst (fold_left oldest_step (_cache c) (None, None)).

(** [if not response.completion or response.error: return] *)
Definition not_cacheable (r : CompletionResponse) : bool :=
  negb (str_truthy (completion r)) || opt_str_truthy (error r).

(** The eviction step of [set]. *)
Definition evict (c : CompletionCache) : CompletionCache :=
  if _max_size c <=? dict_len (_cache c) then
    match _find_oldest_entry c with
    | Some oldest =>
        if str_truthy oldest
        then with_cache c (dict_del (_cache c) oldest)
        else c
    | None => c
    end
  else c.

Definition set (c : CompletionCache) (req : CompletionRequest)
           (resp : CompletionResponse) (now_ms : Q) : CompletionCache :=
  if not_cacheable resp then c
  else
    let c1 := evict c in
    let key := _hash_key req in
    with_cache c1 (dict_store (_cache c1) key (mkCacheEntry resp now_ms)).

Definition clear (c : CompletionCache) : CompletionCache := with_cache c [].

Definition size (c : CompletionCache) : Z := dict_len (_cache c).

(** A call on the cache object, with the clock reading it sees. *)
Inductive Op :=
| OpGet (req : CompletionRequest) (now_ms : Q)
| OpSet (req : CompletionRequest) (resp : CompletionResponse) (now_ms : Q)
| OpClear.

Definition step (c : CompletionCache) (o : Op) : CompletionCache :=
  match o with
  | OpGet req now_ms => snd (get c req now_ms)
  | OpSet req resp now_ms => set c req resp now_ms
  | OpClear => clear c
  end.

Definition run (c : CompletionCache) (ops : list Op) : CompletionCache :=
  fold_left step ops c.

End Cache.

(* ------------------------------------------------------------------ *)
(** * utils/rate_limiter.py *)
(* ------------------------------------------------------------------ *)

Module RateLimiter.

Record RateLimiter := mkRateLimiter {
  _requests : list Q;
  _window_ms : Z;
  _max_requests : Z
}.

(** [RateLimiter(window_ms, max_requests)] *)
Definition init (window_ms max_requests : Z) : RateLimiter :=
  mkRateLimiter [] window_ms max_requests.

Definition with_requests (l : RateLimiter) (rs : list Q) : RateLimiter :=
  mkRateLimiter rs (_window_ms l) (_max_requests l).

(** [[t for t in self._requests if now - t < self._window_ms]] *)
Definition live (l : RateLimiter) (now : Q) : list Q :=
  filter (fun t => Qltb (now - t) (inject_Z (_window_ms l))) (_requests l).

Definition is_allowed (l : RateLimiter) (now : Q) : bool * RateLimiter :=
  let rs := live l now in
  if _max_requests l <=? Z.of_nat (List.length rs)
  then (false, with_requests l rs)
  else (true, with_requests l (rs ++ [now])%list).

(** [max(0, math.ceil(wait_ms / 1000))] *)
Definition get_retry_after_seconds (l : RateLimiter) (now : Q) : Z :=
  match _requests l with
  | [] => 0
  | oldest :: _ =>
      let wait_ms := (inject_Z (_window_ms l) - (now - oldest))%Q in
      Z.max 0 (Qceiling (wait_ms / 1000))
  end.

Definition get_current_count (l : RateLimiter) (now : Q) : Z * RateLimiter :=
  let rs := live l now in
  (Z.of_nat (List.length rs), with_requests l rs).

Definition reset (l : RateLimiter) : RateLimiter := with_requests l [].

(** [n] calls of [is_allowed] in a row, all reading the clock at [now]. *)
Definition calls (n : nat) (l : RateLimiter) (now : Q) : RateLimiter :=
  Nat.iter n (fun l' => snd (is_allowed l' now)) l.

End RateLimiter.

(* ------------------------------------------------------------------ *)
(** * utils/metrics.py *)
(* ------------------------------------------------------------------ *)

(** [round(x)] to an [int]: to the nearest integer, a tie to the even one. *)
Definition py_round (x : Q) : Z :=
  let f := Qfloor x in
  let d := (x - inject_Z f)%Q in
  if Qltb d (1 # 2) then f
  else if Qltb (1 # 2) d then f + 1
  else if Z.even f then f else f + 1.

(** [sum(xs)] *)
Definition py_sum (xs : list Q) : Q := fold_left Qplus xs 0%Q.

Record MetricsSnapshot := mkMetricsSnapshot {
  totalRequests : Z;
  cacheHits : Z;
  cacheHitRate : Q;
  avgResponseTimeMs : Z;
  requestsByModel : dict Z;
  errorCount : Z
}.

Module Metrics.

Definition MAX_RESPONSE_TIMES : Z := 1000.

Record Metrics := mkMetrics {
  _total_requests : Z;
  _cache_hits : Z;
  _response_times : list Q;
  _requests_by_model : dict Z;
  _error_count : Z
}.

(** [Metrics()] *)
Definition init : Metrics := mkMetrics 0 0 [] [] 0.

(** [xs.append(x)] followed by [if len(xs) > MAX_RESPONSE_TIMES: xs.pop(0)] *)
Definition push_response_time (xs : list Q) (x : Q) : list Q :=
  let xs' := (xs ++ [x])%list in
  if MAX_RESPONSE_TIMES <? Z.of_nat (List.length xs') then tl xs' else xs'.

Definition record_request (m : Metrics) (model : string)
           (response_time_ms : Q) (cache_hit error : bool) : Metrics :=
  mkMetrics
    (_total_requests m + 1)
    (if cache_hit then _cache_hits m + 1 else _cache_hits m)
    (push_response_time (_response_times m) response_time_ms)
    (dict_store (_requests_by_model m) model
       (match dict_lookup (_requests_by_model m) model with
        | Some n => n
        | None => 0
        end + 1))
    (if error then _error_count m + 1 else _error_count m).

(** The snapshot with the two quotients evaluated without rounding.
    The program evaluates them in binary64 ([get_metrics_float] below);
    this definition serves statements that rounding does not affect. *)
Definition get_metrics (m : Metrics) : MetricsSnapshot :=
  let avg_response_time_ms :=
    match _response_times m with
    | [] => 0
    | _ => py_round (py_sum (_response_times m)
                     / inject_Z (Z.of_nat (List.length (_response_times m))))
    end in
  let cache_hit_rate :=
    if 0 <? _total_requests m
    then (inject_Z (py_round
            ((inject_Z (_cache_hits m) / inject_Z (_total_requests m)) * 100))
          / 100)%Q
    else 0%Q in
  mkMetricsSnapshot
    (_total_requests m) (_cache_hits m) cache_hit_rate avg_response_time_ms
    (_requests_by_model m) (_error_count m).

Definition reset (m : Metrics) : Metrics := init.

(** One call of [record_request], with its arguments. *)
Record Call := mkCall {
  c_model : string;
  c_response_time_ms : Q;
  c_cache_hit : bool;
  c_error : bool
}.

Definition record (m : Metrics) (c : Call) : Metrics :=
  record_request m (c_model c) (c_response_time_ms c) (c_cache_hit c) (c_error c).

Definition run (m : Metrics) (cs : list Call) : Metrics := fold_left record cs m.

End Metrics.

(* ------------------------------------------------------------------ *)
(** * Binary64 arithmetic *)
(* ------------------------------------------------------------------ *)

(** [2^e] for an integer [e]. *)
Definition pow2 (e : Z) : Q :=
  if 0 <=? e then inject_Z (2 ^ e) else 1 # Z.to_pos (2 ^ (- e)).

(** [floor(log2 x)] for [x > 0]. *)
Definition floor_log2 (x : Q) : Z :=
  let k := Z.log2 (Qnum x) - Z.log2 (Z.pos (Qden x)) in
  if Qle_bool (pow2 k) x then k else k - 1.

(** The binary64 number nearest to a positive real, ties to the even
    significand: 53 significant bits, exponents from -1022 up
    (subnormal numbers included, overflow not modelled). *)
Definition binary64_pos (x : Q) : Q :=
  let quantum := pow2 (Z.max (floor_log2 x) (-1022) - 52) in
  Qred (inject_Z (py_round (x / quantum)) * quantum).

(** Rounding of a real to binary64. *)
Definition binary64 (x : Q) : Q :=
  match Qnum x with
  | 0 => 0%Q
  | Z.pos _ => binary64_pos x
  | Z.neg _ => (- binary64_pos (- x))%Q
  end.

(** The arithmetic the metrics are computed in: [fl] rounds the exact
    result of a division or a multiplication, [fsum] is the builtin
    [sum] on a list of floats. *)
Record FloatArith := mkFloatArith {
  fl : Q -> Q;
  fsum : list Q -> Q
}.

(** Arithmetic without rounding. *)
Definition exact_arith : FloatArith := mkFloatArith (fun x => x) py_sum.

(** Binary64, with [sum] adding from left to right, as the builtin
    does up to Python 3.11. *)
Definition binary64_arith : FloatArith :=
  mkFloatArith binary64 (fun xs => fold_left (fun a x => binary64 (a + x)) xs 0%Q).




(** [Metrics.get_metrics] with its two float-valued fields computed in
    the arithmetic [A]: [sum(...) / len(...)] is one rounded division,
    [(hits / total) * 100] a rounded division and a rounded product,
    [round(...) / 100] a rounded division of two integers. *)
Definition get_metrics_float (A : FloatArith) (m : Metrics.Metrics)
  : MetricsSnapshot :=
  let avg_response_time_ms :=
    match Metrics._response_times m with
    | [] => 0
    | _ => py_round
             (fl A (fsum A (Metrics._response_times m)
                    / inject_Z (Z.of_nat
                                  (List.length (Metrics._response_times m)))))
    end in
  let cache_hit_rate :=
    if 0 <? Metrics._total_requests m
    then fl A (inject_Z
                 (py_round
                    (fl A (fl A (inject_Z (Metrics._cache_hits m)
                                 / inject_Z (Metrics._total_requests m))
                           * 100)))
               / 100)
    else 0%Q in
  mkMetricsSnapshot
    (Metrics._total_requests m) (Metrics._cache_hits m) cache_hit_rate
    avg_response_time_ms (Metrics._requests_by_model m) (Metrics._error_count m).

(* ------------------------------------------------------------------ *)
(** * Text: character classes, [str.strip], the regular expressions *)
(* ------------------------------------------------------------------ *)

Definition code_in (lo hi : nat) (c : ascii) : bool :=
  (lo <=? nat_of_ascii c)%nat && (nat_of_ascii c <=? hi)%nat.

(** [\w]: letters, digits and the underscore. *)
Definition is_word (c : ascii) : bool :=
  code_in 48 57 c || code_in 65 90 c || code_in 97 122 c || code_in 95 95 c.

(** Whitespace of [str.strip()]: TAB, LF, VT, FF, CR, FS, GS, RS, US, space. *)
Definition is_space (c : ascii) : bool :=
  code_in 9 13 c || code_in 28 32 c.

(** Case folding of [re.IGNORECASE]. *)
Definition lower (c : ascii) : ascii :=
  if code_in 65 90 c then ascii_of_nat (nat_of_ascii c + 32) else c.

Fixpoint drop_while (f : ascii -> bool) (l : list ascii) : list ascii :=
  match l with
  | [] => []
  | c :: l' => if f c then drop_while f l' else l
  end.

(** [s.strip()] *)
Definition py_strip (s : string) : string :=
  string_of_list_ascii
    (rev (drop_while is_space
            (rev (drop_while is_space (list_ascii_of_string s))))).

(** [re.sub(r"^```[\w]*\n?", "", text)]: without [re.MULTILINE] the
    anchor holds at offset 0 only; the word run and the line feed are
    taken greedily. *)
Definition sub_open_fence (text : string) : string :=
  match list_ascii_of_string text with
  | "`"%char :: "`"%char :: "`"%char :: rest =>
      let after_tag := drop_while is_word rest in
      string_of_list_ascii
        match after_tag with
        | c :: after_nl => if Ascii.eqb c LF then after_nl else after_tag
        | [] => after_tag
        end
  | _ => text
  end.

(** [re.sub(r"\n?```$", "", text)]: [$] holds at the end of the text
    and just before a line feed that ends the text; the match is the
    leftmost one, so a line feed before the fence is part of it. *)
Definition sub_close_fence (text : string) : string :=
  let drop_nl (r : list ascii) : list ascii :=
    match r with
    | c :: r' => if Ascii.eqb c LF then r' else r
    | [] => r
    end in
  match rev (list_ascii_of_string text) with
  | "`"%char :: "`"%char :: "`"%char :: before =>
      string_of_list_ascii (rev (drop_nl before))
  | c :: "`"%char :: "`"%char :: "`"%char :: before =>
      if Ascii.eqb c LF
      then string_of_list_ascii (rev (drop_nl before) ++ [LF])%list
      else text
  | _ => text
  end.

(** The fragment of [re] syntax the patterns use. *)
Inductive regex :=
| Eps
| Bol                          (* ^ *)
| Chr (c : ascii)
| Seq (r1 r2 : regex)
| Alt (r1 r2 : regex).

(** A literal. *)
Fixpoint lit (s : string) : regex :=
  match s with
  | EmptyString => Eps
  | String c s' => Seq (Chr c) (lit s')
  end.

(** [(r1|r2|...)] *)
Fixpoint alt_of (r : regex) (rs : list regex) : regex :=
  match rs with
  | [] => r
  | r' :: rs' => Alt r (alt_of r' rs')
  end.

(** [re_match r bos s k]: [r] matches a prefix of [s] and [k] accepts
    the rest; [bos] says that [s] starts at offset 0.  Characters are
    compared under [re.IGNORECASE]. *)
Fixpoint re_match (r : regex) (bos : bool) (s : list ascii)
         (k : bool -> list ascii -> bool) : bool :=
  match r with
  | Eps => k bos s
  | Bol => if bos then k bos s else false
  | Chr c =>
      match s with
      | a :: s' => if Ascii.eqb (lower a) (lower c) then k false s' else false
      | [] => false
      end
  | Seq r1 r2 => re_match r1 bos s (fun b s' => re_match r2 b s' k)
  | Alt r1 r2 => re_match r1 bos s k || re_match r2 bos s k
  end.

(** A match at some offset of [s]. *)
Fixpoint re_search_from (r : regex) (bos : bool) (s : list ascii) : bool :=
  re_match r bos s (fun _ _ => true) ||
  match s with
  | [] => false
  | _ :: s' => re_search_from r false s'
  end.

(** [bool(p.search(s))] for [p = re.compile(..., re.IGNORECASE)] *)
Definition re_search (r : regex) (s : string) : bool :=
  re_search_from r true (list_ascii_of_string s).

(** A compiled pattern: [p.pattern] and the expression it denotes. *)
Record Pattern := mkPattern {
  pattern : string;
  compiled : regex
}.

(* ------------------------------------------------------------------ *)
(** * services/completion.py, services/modification.py: cleaning *)
(* ------------------------------------------------------------------ *)

Definition CONVERSATIONAL_PATTERNS : list Pattern :=
  [ mkPattern "^I (need|cannot|can't|don't|would|could)"
      (Seq Bol (Seq (lit "I ")
         (alt_of (lit "need")
            [lit "cannot"; lit "can't"; lit "don't"; lit "would"; lit "could"])));
    mkPattern "^(Could|Would|Can) you"
      (Seq Bol (Seq (alt_of (lit "Could") [lit "Would"; lit "Can"]) (lit " you")));
    mkPattern "more context" (lit "more context");
    mkPattern "cannot provide" (lit "cannot provide");
    mkPattern "please provide" (lit "please provide");
    mkPattern "let me" (lit "let me");
    mkPattern "however" (lit "however");
    mkPattern "without (additional|more)"
      (Seq (lit "without ") (alt_of (lit "additional") [lit "more"])) ].

(** The text after the two substitutions and [strip()]. *)
Definition strip_fences (text : string) : string :=
  py_strip (sub_close_fence (sub_open_fence text)).

Definition clean_completion (text : string) (max_length : Z)
  : string * option string :=
  let cleaned := strip_fences text in
  match find (fun p => re_search (compiled p) cleaned) CONVERSATIONAL_PATTERNS with
  | Some p => ("", Some ("Filtered conversational response: " ++ pattern p))
  | None =>
      if max_length <? len cleaned
      then ("", Some ("Filtered response (too long): "
                      ++ str_of_int (len cleaned) ++ " > "
                      ++ str_of_int max_length))
      else (cleaned, None)
  end.

Definition clean_modification (text : string) : string := strip_fences text.

(* ------------------------------------------------------------------ *)
(** * Exceptions, the world, and the monad of the pipelines *)
(* ------------------------------------------------------------------ *)

(** The exception classes the pipelines name.  [Exception_] stands for
    any other subclass of [Exception] ([ValueError], [RuntimeError]...).
    In [claude_agent_sdk], [CLINotFoundError] derives from
    [CLIConnectionError], and [CLIConnectionError], [ProcessError] and
    [CLIJSONDecodeError] derive from [ClaudeSDKError]. *)
Inductive ExnClass :=
| TimeoutError
| CLINotFoundError
| CLIConnectionError
| ProcessError
| CLIJSONDecodeError
| ClaudeSDKError
| Exception_.

Definition class_eqb (c d : ExnClass) : bool :=
  match c, d with
  | TimeoutError, TimeoutError
  | CLINotFoundError, CLINotFoundError
  | CLIConnectionError, CLIConnectionError
  | ProcessError, ProcessError
  | CLIJSONDecodeError, CLIJSONDecodeError
  | ClaudeSDKError, ClaudeSDKError
  | Exception_, Exception_ => true
  | _, _ => false
  end.

(** [issubclass(c, d)] *)
Definition issubclass (c d : ExnClass) : bool :=
  match d with
  | Exception_ => true
  | ClaudeSDKError =>
      match c with
      | CLINotFoundError | CLIConnectionError | ProcessError
      | CLIJSONDecodeError | ClaudeSDKError => true
      | _ => false
      end
  | CLIConnectionError =>
      match c with
      | CLINotFoundError | CLIConnectionError => true
      | _ => false
      end
  | _ => class_eqb c d
  end.

(** The value of an [exit_code] attribute. *)
Inductive PyVal :=
| PyNone
| PyInt (z : Z).

(** An exception object: its class, [str(e)], and its [exit_code]
    attribute when it has one. *)
Record Exn := mkExn {
  exn_class : ExnClass;
  exn_str : string;
  exn_exit_code : option PyVal
}.

Definition isinstance (e : Exn) (c : ExnClass) : bool :=
  issubclass (exn_class e) c.

Inductive Result (A : Type) :=
| Ok (a : A)
| Raise (e : Exn).
Arguments Ok {A} a.
Arguments Raise {A} e.

(** One invocation of the SDK's [query]. *)
Record BackendCall := mkBackendCall {
  bc_prompt : string;
  bc_system_prompt : string;
  bc_model : string;
  bc_max_turns : Z;
  bc_timeout : Q               (* seconds, of [asyncio.timeout] *)
}.

(** What the pipelines depend on and do not define: the clock, the
    process environment, the SDK, the prompt templates, and two
    formatting builtins. *)
Record Env := mkEnv {
  (** the value of the [k]-th evaluation of [time.time() * 1000] *)
  clock : nat -> Q;
  (** [os.environ.get("COMPLETION_TIMEOUT_MS")] *)
  environ_COMPLETION_TIMEOUT_MS : option string;
  (** the outcome of the [k]-th invocation of [query] under
      [asyncio.timeout]: the concatenated text blocks, or the exception *)
  query : nat -> BackendCall -> Result string;
  get_system_prompt : bool -> string;
  get_user_prompt : string -> string -> string -> string -> string;
  get_modify_system_prompt : string;
  get_modify_user_prompt : string -> string -> string -> string -> string -> string;
  (** [f"{timeout}"] for a float *)
  format_float : Q -> string;
  (** [repr(s)] *)
  py_repr : string -> string
}.

(** The process-wide singletons and the trace of the run. *)
Record World := mkWorld {
  completion_cache : Cache.CompletionCache;
  metrics : Metrics.Metrics;
  clock_reads : nat;
  backend_calls : list BackendCall
}.

Definition M (A : Type) : Type := World -> Result A * World.

Definition ret {A} (a : A) : M A := fun w => (Ok a, w).

Definition raise {A} (e : Exn) : M A := fun w => (Raise e, w).

Definition bind {A B} (m : M A) (f : A -> M B) : M B :=
  fun w =>
    match m w with
    | (Ok a, w') => f a w'
    | (Raise e, w') => (Raise e, w')
    end.

Notation "x <- m ;; k" := (bind m (fun x => k))
  (at level 61, m at next level, right associativity).
Notation "m ;;; k" := (bind m (fun _ => k))
  (at level 61, right associativity).

(** An [except C as e: body] clause. *)
Definition Handler (A : Type) : Type := (ExnClass * (Exn -> M A))%type.

(** The first clause whose class the exception is an instance of runs;
    with none, the exception goes on. *)
Fixpoint dispatch {A} (handlers : list (Handler A)) (e : Exn) : M A :=
  match handlers with
  | [] => raise e
  | (c, h) :: rest => if isinstance e c then h e else dispatch rest e
  end.

Definition try_except {A} (body : M A) (handlers : list (Handler A)) : M A :=
  fun w =>
    match body w with
    | (Ok a, w') => (Ok a, w')
    | (Raise e, w') => dispatch handlers e w'
    end.

(** [int(s)] in base 10 on ASCII text: optional surrounding whitespace,
    an optional sign, digits with single underscores between them. *)
Definition is_digit (c : ascii) : bool := code_in 48 57 c.

Fixpoint digits_value (acc : Z) (after_digit : bool) (l : list ascii)
  : option Z :=
  match l with
  | [] => if after_digit then Some acc else None
  | c :: l' =>
      if is_digit c
      then digits_value (10 * acc + Z.of_nat (nat_of_ascii c - 48)) true l'
      else if Ascii.eqb c "_"%char && after_digit
           then digits_value acc false l'
           else None
  end.

Definition py_int (s : string) : option Z :=
  match list_ascii_of_string (py_strip s) with
  | "-"%char :: l => option_map Z.opp (digits_value 0 false l)
  | "+"%char :: l => digits_value 0 false l
  | l => digits_value 0 false l
  end.

(* ------------------------------------------------------------------ *)
(** * services/claude_client.py *)
(* ------------------------------------------------------------------ *)

(** Timeouts in seconds. *)
Definition MODEL_TIMEOUTS : dict Q :=
  [("haiku", 5%Q); ("sonnet", 10%Q); ("opus", 30%Q)].

Definition DEFAULT_TIMEOUT : Q := 5%Q.

Section Services.
Variable env : Env.

Definition get_timeout (model : string) : Result Q :=
  match environ_COMPLETION_TIMEOUT_MS env with
  | Some env_timeout =>
      if str_truthy env_timeout then
        match py_int env_timeout with
        | Some ms => Ok (inject_Z ms / 1000)%Q
        | None =>
            Raise (mkExn Exception_
                     ("invalid literal for int() with base 10: "
                      ++ py_repr env env_timeout) None)
        end
      else
        match dict_lookup MODEL_TIMEOUTS model with
        | Some t => Ok t
        | None => Ok DEFAULT_TIMEOUT
        end
  | None =>
      match dict_lookup MODEL_TIMEOUTS model with
      | Some t => Ok t
      | None => Ok DEFAULT_TIMEOUT
      end
  end.

(** [timeout_override / 1000 if timeout_override else get_timeout(model)] *)
Definition resolve_timeout (model : string) (timeout_override : option Z)
  : Result Q :=
  match timeout_override with
  | Some ms => if ms =? 0 then get_timeout model else Ok (inject_Z ms / 1000)%Q
  | None => get_timeout model
  end.

Definition lift {A} (r : Result A) : M A := fun w => (r, w).

(** [time.time() * 1000] *)
Definition time_ms : M Q :=
  fun w =>
    (Ok (clock env (clock_reads w)),
     mkWorld (completion_cache w) (metrics w) (S (clock_reads w))
             (backend_calls w)).

(** The [async for] over [query(...)] under [asyncio.timeout(timeout)]. *)
Definition run_query (call : BackendCall) : M string :=
  fun w =>
    (query env (List.length (backend_calls w)) call,
     mkWorld (completion_cache w) (metrics w) (clock_reads w)
             (backend_calls w ++ [call])%list).

Definition get_claude_completion (prompt system_prompt model : string)
           (timeout_override : option Z) : M string :=
  timeout <- lift (resolve_timeout model timeout_override) ;;
  try_except
    (run_query (mkBackendCall prompt system_prompt model 1 timeout))
    [ (TimeoutError,
       fun _ => raise (mkExn TimeoutError
                         ("Request timed out after "
                          ++ format_float env timeout ++ "s") None));
      (CLINotFoundError, fun e => raise e);
      (CLIConnectionError, fun e => raise e);
      (ProcessError, fun e => raise e);
      (CLIJSONDecodeError, fun e => raise e);
      (ClaudeSDKError, fun e => raise e) ].

(* ---------------------------------------------------------------- *)
(** ** The singletons, as seen from the pipelines *)
(* ---------------------------------------------------------------- *)

(** [completion_cache.get(req)]: the clock is read once an entry is found. *)
Definition cache_get (req : CompletionRequest) : M (option CompletionResponse) :=
  fun w =>
    match dict_lookup (Cache._cache (completion_cache w)) (Cache._hash_key req) with
    | None => (Ok None, w)
    | Some _ =>
        let r := Cache.get (completion_cache w) req (clock env (clock_reads w)) in
        (Ok (fst r),
         mkWorld (snd r) (metrics w) (S (clock_reads w)) (backend_calls w))
    end.

(** [completion_cache.set(req, response)]: the clock is read when the
    response is stored. *)
Definition cache_set (req : CompletionRequest) (resp : CompletionResponse)
  : M unit :=
  fun w =>
    if Cache.not_cacheable resp then (Ok tt, w)
    else
      (Ok tt,
       mkWorld (Cache.set (completion_cache w) req resp (clock env (clock_reads w)))
               (metrics w) (S (clock_reads w)) (backend_calls w)).

(** [metrics.record_request(model, elapsed, cache_hit, error)] *)
Definition record_request (model : string) (elapsed : Q)
           (cache_hit error : bool) : M unit :=
  fun w =>
    (Ok tt,
     mkWorld (completion_cache w)
             (Metrics.record_request (metrics w) model elapsed cache_hit error)
             (clock_reads w) (backend_calls w)).

(** [x or "..."] on an [Optional[str]]. *)
Definition opt_str_or (o : option string) (d : string) : string :=
  match o with
  | Some s => str_or s d
  | None => d
  end.

(** [f"{exit_code}"] for [exit_code = getattr(e, "exit_code", "unknown")] *)
Definition format_exit_code (e : Exn) : string :=
  match exn_exit_code e with
  | None => "unknown"
  | Some PyNone => "None"
  | Some (PyInt z) => str_of_int z
  end.

Definition CLI_NOT_FOUND_MESSAGE : string :=
  "Claude Code CLI not found. Please install it with: npm install -g @anthropic-ai/claude-code".

(** The seven [except] clauses shared by the two pipelines: each
    reads the clock, records the request as an error and returns the
    envelope built by [reply] from the error message. *)
Definition failure_handlers {A} (model : string) (start_time : Q)
           (reply : string -> A) : list (Handler A) :=
  let fail (error_msg : string) : M A :=
    t <- time_ms ;;
    record_request model (t - start_time)%Q false true ;;;
    ret (reply error_msg) in
  [ (TimeoutError, fun _ => fail "Request timed out");
    (CLINotFoundError, fun _ => fail CLI_NOT_FOUND_MESSAGE);
    (CLIConnectionError,
     fun e => fail ("Failed to connect to Claude Code CLI: " ++ exn_str e));
    (ProcessError,
     fun e => fail ("Claude Code CLI process failed (exit code: "
                    ++ format_exit_code e ++ ")"));
    (CLIJSONDecodeError,
     fun e => fail ("Failed to parse Claude Code response: " ++ exn_str e));
    (ClaudeSDKError, fun e => fail ("Claude SDK error: " ++ exn_str e));
    (Exception_,
     fun e => fail (if str_truthy (exn_str e) then exn_str e
                    else "Unknown error")) ].

(* ---------------------------------------------------------------- *)
(** ** services/completion.py *)
(* ---------------------------------------------------------------- *)

Definition get_completion (req : CompletionRequest) (request_id : option string)
  : M CompletionResponse :=
  let prefix := prefix req in
  let suffix := str_or (suffix req) "" in
  let language := language req in
  let filename := opt_str_or (filename req) "unknown" in
  let model := str_or (model req) "haiku" in
  let multiline := multiline req in
  let max_length := if multiline then 1000 else 200 in
  start_time <- time_ms ;;
  cached <- cache_get req ;;
  match cached with
  | Some cached =>
      t <- time_ms ;;
      record_request model (t - start_time)%Q true false ;;;
      ret (mkCompletionResponse (completion cached) (error cached) request_id)
  | None =>
      let system_prompt := get_system_prompt env multiline in
      let prompt := get_user_prompt env language filename prefix suffix in
      try_except
        (completion_text <- get_claude_completion prompt system_prompt model None ;;
         let cleaned := clean_completion completion_text max_length in
         t <- time_ms ;;
         let elapsed := (t - start_time)%Q in
         if opt_str_truthy (snd cleaned) then
           record_request model elapsed false false ;;;
           ret (mkCompletionResponse "" None request_id)
         else
           let response := mkCompletionResponse (fst cleaned) None request_id in
           cache_set req response ;;;
           record_request model elapsed false false ;;;
           ret response)
        (failure_handlers model start_time
           (fun error_msg =>
              mkCompletionResponse "" (Some error_msg) request_id))
  end.

(* ---------------------------------------------------------------- *)
(** ** services/modification.py *)
(* ---------------------------------------------------------------- *)

Definition get_modification (req : ModifyRequest) (request_id : option string)
  : M ModifyResponse :=
  let code := m_code req in
  let instruction := m_instruction req in
  let language := m_language req in
  let model := str_or (m_model req) "opus" in
  let prefix := str_or (m_prefix req) "" in
  let suffix := str_or (m_suffix req) "" in
  start_time <- time_ms ;;
  let system_prompt := get_modify_system_prompt env in
  let prompt := get_modify_user_prompt env language code instruction prefix suffix in
  try_except
    (modified_text <- get_claude_completion prompt system_prompt model None ;;
     let cleaned_code := clean_modification modified_text in
     t <- time_ms ;;
     record_request model (t - start_time)%Q false false ;;;
     ret (mkModifyResponse cleaned_code None request_id))
    (failure_handlers model start_time
       (fun error_msg => mkModifyResponse "" (Some error_msg) request_id)).

End Services.

(* ------------------------------------------------------------------ *)
(** * Runs of the rate limiter *)
(* ------------------------------------------------------------------ *)

(** A call on the limiter object, with the clock reading it sees. *)
Inductive LimiterOp :=
| LIsAllowed (now : Q)
| LCurrentCount (now : Q)
| LReset.

Definition limiter_step (l : RateLimiter.RateLimiter) (o : LimiterOp)
  : RateLimiter.RateLimiter :=
  match o with
  | LIsAllowed now => snd (RateLimiter.is_allowed l now)
  | LCurrentCount now => snd (RateLimiter.get_current_count l now)
  | LReset => RateLimiter.reset l
  end.

Definition limiter_run (l : RateLimiter.RateLimiter) (ops : list LimiterOp)
  : RateLimiter.RateLimiter :=
  fold_left limiter_step ops l.

(* ------------------------------------------------------------------ *)
(** * routers/completion.py *)
(* ------------------------------------------------------------------ *)

Definition format_duration (seconds : Z) : string :=
  let hours := seconds / 3600 in
  let minutes := (seconds mod 3600) / 60 in
  let secs := seconds mod 60 in
  str_of_int hours ++ "h " ++ str_of_int minutes ++ "m " ++ str_of_int secs ++ "s".

(** What an endpoint returns: the 429 [JSONResponse] with its body and
    its [Retry-After] header, or the envelope of the pipeline (sent
    with status 200). *)
Inductive HttpResponse (A : Type) :=
| TooManyRequests (body_error : string) (body_text : string)
                  (body_requestId : string) (retry_after_header : string)
| Served (envelope : A).
Arguments TooManyRequests {A} _ _ _ _.
Arguments Served {A} _.

(** The singletons of the process: the limiter and the rest. *)
Record Server := mkServer {
  rate_limiter : RateLimiter.RateLimiter;
  world : World
}.

Section Routers.
Variable env : Env.

(** [rate_limiter.is_allowed()] followed, when the answer is no, by
    [rate_limiter.get_retry_after_seconds()], which reads the clock
    once the window is known not to be empty.  The result is [None]
    when the request is admitted and the retry delay otherwise. *)
Definition check_rate_limit (s : Server) : option Z * Server :=
  let r := RateLimiter.is_allowed (rate_limiter s)
             (clock env (clock_reads (world s))) in
  let w1 := snd (time_ms env (world s)) in
  if fst r then (None, mkServer (snd r) w1)
  else
    match RateLimiter._requests (snd r) with
    | [] => (Some 0, mkServer (snd r) w1)
    | _ :: _ =>
        (Some (RateLimiter.get_retry_after_seconds (snd r)
                 (clock env (clock_reads w1))),
         mkServer (snd r) (snd (time_ms env w1)))
    end.

(** [POST /inline], for the [request_id] drawn by [uuid.uuid4()]. *)
Definition inline (request_id : string) (request : CompletionRequest)
           (s : Server) : Result (HttpResponse CompletionResponse) * Server :=
  match check_rate_limit s with
  | (Some retry_after, s1) =>
      (Ok (TooManyRequests "Too many requests" "" request_id
             (str_of_int retry_after)), s1)
  | (None, s1) =>
      match get_completion env request (Some request_id) (world s1) with
      | (Ok result, w2) => (Ok (Served result), mkServer (rate_limiter s1) w2)
      | (Raise e, w2) => (Raise e, mkServer (rate_limiter s1) w2)
      end
  end.

(** [POST /transform] *)
Definition transform (request_id : string) (request : ModifyRequest)
           (s : Server) : Result (HttpResponse ModifyResponse) * Server :=
  match check_rate_limit s with
  | (Some retry_after, s1) =>
      (Ok (TooManyRequests "Too many requests" "" request_id
             (str_of_int retry_after)), s1)
  | (None, s1) =>
      match get_modification env request (Some request_id) (world s1) with
      | (Ok result, w2) => (Ok (Served result), mkServer (rate_limiter s1) w2)
      | (Raise e, w2) => (Raise e, mkServer (rate_limiter s1) w2)
      end
  end.

(** Requests to [/inline] served one after the other. *)
Fixpoint serve_inline (requests : list (string * CompletionRequest))
         (s : Server)
  : list (Result (HttpResponse CompletionResponse)) * Server :=
  match requests with
  | [] => ([], s)
  | (request_id, request) :: rest =>
      let r := inline request_id request s in
      let rs := serve_inline rest (snd r) in
      (fst r :: fst rs, snd rs)
  end.

End Routers.

(* ================================================================== *)
(** * Properties *)
(* ================================================================== *)

(** ** Rational comparisons *)

Lemma Qltb_true (x y : Q) : Qltb x y = true <-> (x < y)%Q.
Proof.
  unfold Qltb. rewrite negb_true_iff. split; intro H.
  - apply Qnot_le_lt. intro Hle. apply Qle_bool_iff in Hle. congruence.
  - destruct (Qle_bool y x) eqn:E; [|reflexivity].
    apply Qle_bool_iff in E. exfalso. exact (Qlt_not_le _ _ H E).
Qed.

Lemma Qltb_false (x y : Q) : Qltb x y = false <-> (y <= x)%Q.
Proof.
  unfold Qltb. rewrite negb_false_iff. apply Qle_bool_iff.
Qed.

(** ** Dictionaries *)

Section DictFacts.
Context {V : Type}.
Implicit Types (d : dict V) (k : string) (v : V).

Lemma dict_lookup_store_eq d k v : dict_lookup (dict_store d k v) k = Some v.
Proof.
  induction d as [|[k' v'] rest IH]; simpl.
  - now rewrite String.eqb_refl.
  - destruct (String.eqb k k') eqn:E; simpl; rewrite E; auto.
Qed.

Lemma dict_lookup_store_ne d k k' v :
  k <> k' -> dict_lookup (dict_store d k v) k' = dict_lookup d k'.
Proof.
  intros Hne. induction d as [|[k0 v0] rest IH]; simpl.
  - destruct (String.eqb k' k) eqn:E; [|reflexivity].
    apply String.eqb_eq in E. congruence.
  - destruct (String.eqb k k0) eqn:E; simpl.
    + apply String.eqb_eq in E. subst k0.
      destruct (String.eqb k' k) eqn:E'; [|reflexivity].
      apply String.eqb_eq in E'. congruence.
    + now rewrite IH.
Qed.

Lemma dict_lookup_del_ne d k k' :
  k <> k' -> dict_lookup (dict_del d k) k' = dict_lookup d k'.
Proof.
  intros Hne. induction d as [|[k0 v0] rest IH]; simpl; [reflexivity|].
  destruct (String.eqb k k0) eqn:E; simpl.
  - apply String.eqb_eq in E. subst k0.
    destruct (String.eqb k' k) eqn:E'; [|reflexivity].
    apply String.eqb_eq in E'. congruence.
  - now rewrite IH.
Qed.

Lemma dict_lookup_None_keys d k :
  dict_lookup d k = None <-> ~ In k (dict_keys d).
Proof.
  induction d as [|[k0 v0] rest IH]; simpl.
  - tauto.
  - destruct (String.eqb k k0) eqn:E.
    + apply String.eqb_eq in E. subst. split; [discriminate|tauto].
    + apply String.eqb_neq in E. rewrite IH. split.
      * intros H [H'|H']; [congruence|tauto].
      * tauto.
Qed.

Lemma dict_lookup_In d k v : dict_lookup d k = Some v -> In (k, v) d.
Proof.
  induction d as [|[k0 v0] rest IH]; simpl; [discriminate|].
  destruct (String.eqb k k0) eqn:E.
  - apply String.eqb_eq in E. intros [= ->]. subst. now left.
  - auto.
Qed.

Lemma dict_In_lookup d k v :
  NoDup (dict_keys d) -> In (k, v) d -> dict_lookup d k = Some v.
Proof.
  induction d as [|[k0 v0] rest IH]; simpl; [tauto|].
  intros Hnd [Heq|Hin].
  - injection Heq as -> ->. now rewrite String.eqb_refl.
  - inversion Hnd as [|? ? Hnotin Hnd']; subst.
    destruct (String.eqb k k0) eqn:E.
    + apply String.eqb_eq in E. subst k0. exfalso. apply Hnotin.
      change k with (fst (k, v)). now apply in_map.
    + auto.
Qed.

Lemma dict_keys_del_incl d k k' :
  In k' (dict_keys (dict_del d k)) -> In k' (dict_keys d).
Proof.
  induction d as [|[k0 v0] rest IH]; simpl; [tauto|].
  destruct (String.eqb k k0); simpl; tauto.
Qed.

Lemma dict_keys_store_incl d k v k' :
  In k' (dict_keys (dict_store d k v)) -> k' = k \/ In k' (dict_keys d).
Proof.
  induction d as [|[k0 v0] rest IH]; simpl.
  - intros [H|[]]; auto.
  - destruct (String.eqb k k0) eqn:E; simpl; [tauto|].
    intros [H|H]; [tauto|]. apply IH in H. tauto.
Qed.

Lemma dict_del_NoDup d k : NoDup (dict_keys d) -> NoDup (dict_keys (dict_del d k)).
Proof.
  induction d as [|[k0 v0] rest IH]; simpl; [auto|].
  intros Hnd. inversion Hnd as [|? ? Hnotin Hnd']; subst.
  destruct (String.eqb k k0); simpl; [assumption|].
  constructor; [|auto].
  intros Hin. apply Hnotin. eapply dict_keys_del_incl; eauto.
Qed.

Lemma dict_store_NoDup d k v :
  NoDup (dict_keys d) -> NoDup (dict_keys (dict_store d k v)).
Proof.
  induction d as [|[k0 v0] rest IH]; simpl.
  - intros _. constructor; [simpl; tauto|constructor].
  - intros Hnd. inversion Hnd as [|? ? Hnotin Hnd']; subst.
    destruct (String.eqb k k0) eqn:E; simpl.
    + constructor; assumption.
    + apply String.eqb_neq in E. constructor; [|auto].
      intros Hin. apply dict_keys_store_incl in Hin.
      destruct Hin; [congruence|tauto].
Qed.

Lemma dict_lookup_del_eq d k :
  NoDup (dict_keys d) -> dict_lookup (dict_del d k) k = None.
Proof.
  induction d as [|[k0 v0] rest IH]; simpl; [reflexivity|].
  intros Hnd. inversion Hnd as [|? ? Hnotin Hnd']; subst.
  destruct (String.eqb k k0) eqn:E; simpl.
  - apply String.eqb_eq in E. subst k0. now apply dict_lookup_None_keys.
  - rewrite E. auto.
Qed.

Lemma dict_len_del d k v :
  dict_lookup d k = Some v -> dict_len (dict_del d k) = dict_len d - 1.
Proof.
  unfold dict_len.
  induction d as [|[k0 v0] rest IH]; simpl List.length; simpl dict_lookup;
    [discriminate|].
  simpl dict_del. destruct (String.eqb k k0) eqn:E.
  - intros _. lia.
  - intros H. specialize (IH H). simpl List.length. lia.
Qed.

Lemma dict_len_store_present d k v v0 :
  dict_lookup d k = Some v0 -> dict_len (dict_store d k v) = dict_len d.
Proof.
  unfold dict_len.
  induction d as [|[k1 v1] rest IH]; simpl; [discriminate|].
  destruct (String.eqb k k1) eqn:E; simpl; [reflexivity|].
  intros H. specialize (IH H). lia.
Qed.

Lemma dict_len_store_absent d k v :
  dict_lookup d k = None -> dict_len (dict_store d k v) = dict_len d + 1.
Proof.
  unfold dict_len.
  induction d as [|[k1 v1] rest IH]; simpl; [reflexivity|].
  destruct (String.eqb k k1) eqn:E; simpl; [discriminate|].
  intros H. specialize (IH H). lia.
Qed.

Lemma dict_len_store_le d k v : dict_len (dict_store d k v) <= dict_len d + 1.
Proof.
  destruct (dict_lookup d k) eqn:E.
  - erewrite dict_len_store_present by eauto. lia.
  - rewrite dict_len_store_absent by assumption. lia.
Qed.

Lemma dict_len_nonneg d : 0 <= dict_len d.
Proof. unfold dict_len. lia. Qed.
End DictFacts.

(** ** The completion cache *)

Module CacheFacts.
Import Cache.

(** Keys are unique and truthy: every key is a fingerprint. *)
Definition wf (c : CompletionCache) : Prop :=
  NoDup (dict_keys (_cache c)) /\
  forall k, In k (dict_keys (_cache c)) -> str_truthy k = true.

(** [e] is an entry of [c] with the smallest timestamp. *)
Definition oldest_in (c : CompletionCache) (k : string) (e : CacheEntry) : Prop :=
  dict_lookup (_cache c) k = Some e /\
  forall k' e', dict_lookup (_cache c) k' = Some e' ->
                (timestamp e <= timestamp e')%Q.

Lemma str_truthy_app_r (a b : string) :
  str_truthy b = true -> str_truthy (a ++ b) = true.
Proof. destruct a; simpl; auto. Qed.

Lemma _hash_key_truthy (req : CompletionRequest) :
  str_truthy (_hash_key req) = true.
Proof. unfold _hash_key. apply str_truthy_app_r. reflexivity. Qed.

Lemma wf_init ttl max_size : wf (init ttl max_size).
Proof. split; simpl; [constructor|tauto]. Qed.

Lemma wf_del c k : wf c -> wf (with_cache c (dict_del (_cache c) k)).
Proof.
  intros [Hnd Ht]. split; simpl.
  - now apply dict_del_NoDup.
  - intros k' Hin. apply Ht. eapply dict_keys_del_incl; eauto.
Qed.

Lemma wf_store c k v :
  str_truthy k = true -> wf c -> wf (with_cache c (dict_store (_cache c) k v)).
Proof.
  intros Hk [Hnd Ht]. split; simpl.
  - now apply dict_store_NoDup.
  - intros k' Hin. apply dict_keys_store_incl in Hin.
    destruct Hin as [->|Hin]; auto.
Qed.

(** Loop invariant of [_find_oldest_entry] after the items [seen]. *)
Definition oldest_acc (seen : dict CacheEntry)
           (acc : option string * option Q) : Prop :=
  match acc with
  | (Some k, Some t) =>
      exists e, In (k, e) seen /\ t = timestamp e /\
                forall k' e', In (k', e') seen -> (t <= timestamp e')%Q
  | (None, None) => seen = []
  | _ => False
  end.

Lemma oldest_step_acc seen acc item :
  oldest_acc seen acc -> oldest_acc (seen ++ [item])%list (oldest_step acc item).
Proof.
  destruct item as [k e]. destruct acc as [[k0|] [t0|]]; simpl; try tauto.
  - intros (e0 & Hin & -> & Hmin).
    unfold oldest_step; simpl. destruct (Qltb (timestamp e) (timestamp e0)) eqn:E.
    + apply Qltb_true in E. exists e. split; [|split; [reflexivity|]].
      * apply in_or_app. right. now left.
      * intros k' e' Hin'. apply in_app_or in Hin'.
        destruct Hin' as [Hin'|[Heq|[]]].
        -- specialize (Hmin _ _ Hin'). lra.
        -- injection Heq as <- <-. lra.
    + apply Qltb_false in E. exists e0. split; [|split; [reflexivity|]].
      * apply in_or_app. now left.
      * intros k' e' Hin'. apply in_app_or in Hin'.
        destruct Hin' as [Hin'|[Heq|[]]]; [eauto|].
        injection Heq as <- <-. assumption.
  - intros ->. unfold oldest_step; simpl. exists e.
    split; [now left|]. split; [reflexivity|].
    intros k' e' [Heq|[]]. injection Heq as <- <-. lra.
Qed.

Lemma fold_oldest_acc items seen acc :
  oldest_acc seen acc ->
  oldest_acc (seen ++ items)%list (fold_left oldest_step items acc).
Proof.
  revert seen acc. induction items as [|item items IH]; intros seen acc H; simpl.
  - now rewrite app_nil_r.
  - replace (seen ++ item :: items)%list with ((seen ++ [item]) ++ items)%list
      by (rewrite <- app_assoc; reflexivity).
    apply IH. now apply oldest_step_acc.
Qed.

(** On a non-empty cache the scan returns the key of an oldest entry. *)
Lemma _find_oldest_entry_spec c :
  wf c -> _cache c <> [] ->
  exists k e, _find_oldest_entry c = Some k /\ oldest_in c k e.
Proof.
  intros [Hnd _] Hne. unfold _find_oldest_entry.
  pose proof (fold_oldest_acc (_cache c) [] (None, None) eq_refl) as H.
  simpl app in H.
  destruct (fold_left oldest_step (_cache c) (None, None)) as [[k|] [t|]];
    simpl in H; try tauto.
  destruct H as (e & Hin & -> & Hmin).
  exists k, e. split; [reflexivity|]. split.
  - now apply dict_In_lookup.
  - intros k' e' Hl. apply dict_lookup_In in Hl. eauto.
Qed.

Lemma _find_oldest_entry_empty c : _cache c = [] -> _find_oldest_entry c = None.
Proof. unfold _find_oldest_entry. now intros ->. Qed.

(** What [evict] does at capacity on a non-empty cache. *)
Lemma evict_at_capacity c :
  wf c -> _cache c <> [] -> _max_size c <= size c ->
  exists k e, oldest_in c k e /\
              evict c = with_cache c (dict_del (_cache c) k).
Proof.
  intros Hwf Hne Hcap.
  destruct (_find_oldest_entry_spec c Hwf Hne) as (k & e & Hf & Hold).
  exists k, e. split; [assumption|].
  unfold evict. unfold size in Hcap.
  destruct (Z.leb_spec (_max_size c) (dict_len (_cache c))); [|lia].
  rewrite Hf. destruct Hwf as [_ Ht].
  rewrite Ht; [reflexivity|].
  destruct Hold as [Hl _]. apply dict_lookup_In in Hl.
  change k with (fst (k, e)). now apply in_map.
Qed.

Lemma evict_below_capacity c : size c < _max_size c -> evict c = c.
Proof.
  intros H. unfold evict, size in *.
  destruct (Z.leb_spec (_max_size c) (dict_len (_cache c))); [lia|reflexivity].
Qed.

Lemma evict_fields c :
  _ttl_ms (evict c) = _ttl_ms c /\ _max_size (evict c) = _max_size c.
Proof.
  unfold evict. destruct (_max_size c <=? dict_len (_cache c)); [|auto].
  destruct (_find_oldest_entry c); [|auto].
  destruct (str_truthy s); auto.
Qed.

Lemma wf_evict c : wf c -> wf (evict c).
Proof.
  intros H. unfold evict. destruct (_max_size c <=? dict_len (_cache c)); [|auto].
  destruct (_find_oldest_entry c); [|auto].
  destruct (str_truthy s); auto using wf_del.
Qed.

Lemma nonempty_of_size c : 1 <= size c -> _cache c <> [].
Proof. unfold size, dict_len. destruct (_cache c); simpl; [lia|discriminate]. Qed.

Lemma size_evict c :
  wf c -> 1 <= _max_size c -> size c <= _max_size c ->
  size (evict c) <= _max_size c - 1 \/ (evict c = c /\ size c < _max_size c).
Proof.
  intros Hwf Hpos Hle.
  destruct (Z.lt_ge_cases (size c) (_max_size c)) as [Hlt|Hge].
  - right. split; [now apply evict_below_capacity|assumption].
  - left. destruct (evict_at_capacity c Hwf) as (k & e & [Hl _] & ->);
      [apply nonempty_of_size; lia|assumption|].
    unfold size; simpl. rewrite (dict_len_del _ _ _ Hl). unfold size in *. lia.
Qed.

Lemma set_fields c req resp now_ms :
  _ttl_ms (set c req resp now_ms) = _ttl_ms c /\
  _max_size (set c req resp now_ms) = _max_size c.
Proof.
  unfold set. destruct (not_cacheable resp); [auto|]. simpl. apply evict_fields.
Qed.

Lemma get_fields c req now_ms :
  _ttl_ms (snd (get c req now_ms)) = _ttl_ms c /\
  _max_size (snd (get c req now_ms)) = _max_size c.
Proof.
  unfold get. destruct (dict_lookup _ _); [|auto].
  destruct (Qltb _ _); auto.
Qed.

Lemma step_fields c o :
  _ttl_ms (step c o) = _ttl_ms c /\ _max_size (step c o) = _max_size c.
Proof.
  destruct o; simpl; auto using set_fields, get_fields.
Qed.

Lemma wf_step c o : wf c -> wf (step c o).
Proof.
  intros Hwf. destruct o as [req now_ms|req resp now_ms|]; simpl.
  - unfold get. destruct (dict_lookup _ _); [|assumption].
    destruct (Qltb _ _); simpl; auto using wf_del.
  - unfold set. destruct (not_cacheable resp); [assumption|].
    pose proof (wf_evict c Hwf) as H.
    split; simpl.
    + apply dict_store_NoDup, H.
    + intros k Hin. apply dict_keys_store_incl in Hin.
      destruct Hin as [->|Hin]; [apply _hash_key_truthy|now apply H].
  - split; simpl; [constructor|tauto].
Qed.

Lemma size_step c o :
  wf c -> 1 <= _max_size c -> size c <= _max_size c ->
  size (step c o) <= _max_size c.
Proof.
  intros Hwf Hpos Hle. destruct o as [req now_ms|req resp now_ms|]; simpl.
  - unfold get. destruct (dict_lookup _ _) eqn:El; [|assumption].
    destruct (Qltb _ _); simpl; [|assumption].
    unfold size in *. simpl. rewrite (dict_len_del _ _ _ El). lia.
  - unfold set. destruct (not_cacheable resp); [assumption|].
    unfold size at 1. simpl.
    pose proof (dict_len_store_le (_cache (evict c)) (_hash_key req)
                  (mkCacheEntry resp now_ms)) as Hs.
    destruct (size_evict c Hwf Hpos Hle) as [H|[He H]]; unfold size in *.
    + lia.
    + rewrite He in *. lia.
  - unfold size, dict_len. simpl. lia.
Qed.

(** The invariant of every cache built by the constructor. *)
Lemma run_invariant c ops :
  wf c -> 1 <= _max_size c -> size c <= _max_size c ->
  wf (run c ops) /\ _max_size (run c ops) = _max_size c /\
  _ttl_ms (run c ops) = _ttl_ms c /\
  size (run c ops) <= _max_size c.
Proof.
  revert c. induction ops as [|o ops IH]; intros c Hwf Hpos Hle; simpl.
  - auto.
  - destruct (step_fields c o) as [Ht Hm].
    destruct (IH (step c o)) as (H1 & H2 & H3 & H4).
    + now apply wf_step.
    + lia.
    + rewrite Hm. now apply size_step.
    + unfold run in *. simpl. split; [exact H1|].
      split; [congruence|]. split; [congruence|]. lia.
Qed.
End CacheFacts.

Section CacheClaims.
Import Cache CacheFacts.

Lemma run_wf c ops : wf c -> wf (run c ops).
Proof.
  revert c. induction ops as [|o ops IH]; intros c H; simpl; [assumption|].
  apply IH. now apply wf_step.
Qed.

Lemma run_fields c ops :
  _ttl_ms (run c ops) = _ttl_ms c /\ _max_size (run c ops) = _max_size c.
Proof.
  revert c. induction ops as [|o ops IH]; intros c; simpl; [auto|].
  destruct (IH (step c o)) as [H1 H2]. destruct (step_fields c o) as [H3 H4].
  unfold run in *. split; congruence.
Qed.

Lemma cacheable_of_fields resp :
  completion resp <> "" -> error resp = None -> not_cacheable resp = false.
Proof.
  unfold not_cacheable. intros Hc ->. simpl.
  destruct (completion resp); [congruence|reflexivity].
Qed.

(** The statement of the capacity property for a cache built with
    [CompletionCache(ttl_ms, max_size)] and driven by [ops]: the size
    bound, and the shape of a [set] at capacity. *)
Definition capacity_property (ttl_ms max_size : Z) (ops : list Op) : Prop :=
  let c := run (init ttl_ms max_size) ops in
  size c <= max_size /\
  forall req resp now_ms,
    completion resp <> "" -> error resp = None -> max_size <= size c ->
    exists k e,
      oldest_in c k e /\
      size (with_cache c (dict_del (_cache c) k)) = size c - 1 /\
      set c req resp now_ms =
        with_cache c (dict_store (dict_del (_cache c) k) (_hash_key req)
                                 (mkCacheEntry resp now_ms)).

Definition req_of (p : string) : CompletionRequest :=
  mkCompletionRequest p "" "ts" None "haiku" None false.

Definition resp_of (s : string) : CompletionResponse :=
  mkCompletionResponse s None None.

(** C1, as stated, fails: a cache built with [max_size = 0] holds one
    entry after the first [set] (the scan finds no entry to evict in
    an empty dictionary and the insertion goes ahead). *)
Lemma cache_capacity_zero_overflows :
  ~ (forall ttl_ms max_size ops, capacity_property ttl_ms max_size ops).
Proof.
  intros H.
  destruct (H 30000 0 [OpSet (req_of "1") (resp_of "one") 0%Q]) as [Hsize _].
  vm_compute in Hsize. apply Hsize. reflexivity.
Qed.

(** C1 (amended): for every cache whose capacity [max_size] is at
    least 1 and every sequence of get/set/clear operations, the number
    of entries never exceeds [max_size]; and a [set] with a non-empty,
    non-errored response at a size of at least [max_size] deletes
    exactly one entry, one whose timestamp is the smallest among the
    current entries, and then inserts. *)
Theorem cache_capacity_bounded ttl_ms max_size ops :
  1 <= max_size -> capacity_property ttl_ms max_size ops.
Proof.
  intros Hpos. unfold capacity_property.
  destruct (run_invariant (init ttl_ms max_size) ops) as (Hwf & Hm & _ & Hsz).
  { apply wf_init. }
  { assumption. }
  { unfold size, dict_len; simpl. lia. }
  simpl in Hm, Hsz. split; [assumption|].
  intros req resp now_ms Hc He Hcap.
  set (c := run (init ttl_ms max_size) ops) in *.
  destruct (evict_at_capacity c Hwf) as (k & e & Hold & Hev).
  { apply nonempty_of_size. lia. }
  { lia. }
  exists k, e. split; [assumption|]. split.
  - unfold size; simpl. destruct Hold as [Hl _].
    now rewrite (dict_len_del _ _ _ Hl).
  - unfold set. rewrite (cacheable_of_fields _ Hc He). rewrite Hev. reflexivity.
Qed.

Lemma cache_capacity_bounded_witness :
  1 <= 2 /\
  capacity_property 10000 2
    [OpSet (req_of "1") (resp_of "one") 1%Q;
     OpSet (req_of "2") (resp_of "two") 2%Q;
     OpSet (req_of "3") (resp_of "three") 3%Q].
Proof.
  split; [lia|]. apply cache_capacity_bounded. lia.
Defined.

(** C3: after [set(R, P)] with a non-empty completion and no error, a
    [get(R)] made while no more than [ttl_ms] has elapsed returns [P]:
    immediately, and after any further operations that leave the
    entry in the cache. *)
Theorem cache_set_then_get c req resp t0 t1 :
  completion resp <> "" -> error resp = None ->
  (t1 - t0 <= inject_Z (_ttl_ms c))%Q ->
  fst (get (set c req resp t0) req t1) = Some resp /\
  forall ops,
    dict_lookup (_cache (run (set c req resp t0) ops)) (_hash_key req)
      = Some (mkCacheEntry resp t0) ->
    fst (get (run (set c req resp t0) ops) req t1) = Some resp.
Proof.
  intros Hc He Hfresh.
  assert (Hget : forall c', _ttl_ms c' = _ttl_ms c ->
            dict_lookup (_cache c') (_hash_key req) = Some (mkCacheEntry resp t0) ->
            fst (get c' req t1) = Some resp).
  { intros c' Httl Hl. unfold get. rewrite Hl. simpl. rewrite Httl.
    destruct (Qltb _ _) eqn:E; [|reflexivity].
    apply Qltb_true in E. lra. }
  split.
  - apply Hget; [apply set_fields|].
    unfold set. rewrite (cacheable_of_fields _ Hc He). simpl.
    apply dict_lookup_store_eq.
  - intros ops Hl. apply Hget; [|assumption].
    destruct (run_fields (set c req resp t0) ops) as [-> _]. apply set_fields.
Qed.

Lemma cache_set_then_get_witness :
  fst (get (set (init 1000 10) (req_of "const x = ") (resp_of "42") 5%Q)
           (req_of "const x = ") 900%Q) = Some (resp_of "42").
Proof.
  apply (cache_set_then_get (init 1000 10) (req_of "const x = ")
           (resp_of "42") 5%Q 900%Q).
  - discriminate.
  - reflexivity.
  - vm_compute. discriminate.
Defined.

(** C4: in a cache built by the constructor and any operations, for an
    entry [e] stored under the fingerprint of [req], [get]
    reports a miss and deletes the entry exactly when
    [now - e.timestamp > ttl_ms]; otherwise it returns the stored
    response and leaves the cache, timestamp included, as it was.
    Once deleted the entry stays unreachable.  Nothing else expires
    an entry: a [get] of another fingerprint and a [set] of another
    fingerprint below capacity keep it, whatever the clock says. *)
Theorem cache_get_lazy_expiry ttl_ms max_size ops req e :
  let c := run (init ttl_ms max_size) ops in
  dict_lookup (_cache c) (_hash_key req) = Some e ->
  (forall now_ms,
      (inject_Z (_ttl_ms c) < now_ms - timestamp e)%Q ->
      get c req now_ms
        = (None, with_cache c (dict_del (_cache c) (_hash_key req))) /\
      dict_lookup (_cache (snd (get c req now_ms))) (_hash_key req) = None /\
      forall later, fst (get (snd (get c req now_ms)) req later) = None) /\
  (forall now_ms,
      ~ (inject_Z (_ttl_ms c) < now_ms - timestamp e)%Q ->
      get c req now_ms = (Some (response e), c)) /\
  (forall req' now_ms,
      _hash_key req' <> _hash_key req ->
      dict_lookup (_cache (snd (get c req' now_ms))) (_hash_key req) = Some e) /\
  (forall req' resp now_ms,
      _hash_key req' <> _hash_key req -> size c < _max_size c ->
      dict_lookup (_cache (set c req' resp now_ms)) (_hash_key req) = Some e).
Proof.
  intros c Hl.
  assert (Hnd : NoDup (dict_keys (_cache c))) by (apply run_wf, wf_init).
  repeat split.
  - unfold get. rewrite Hl. apply Qltb_true in H. now rewrite H.
  - unfold get. rewrite Hl. apply Qltb_true in H. rewrite H. simpl.
    now apply dict_lookup_del_eq.
  - intros later. unfold get at 2. rewrite Hl. apply Qltb_true in H. rewrite H.
    simpl. unfold get. simpl. now rewrite dict_lookup_del_eq.
  - intros now_ms H. unfold get. rewrite Hl.
    destruct (Qltb _ _) eqn:E; [|reflexivity].
    apply Qltb_true in E. contradiction.
  - intros req' now_ms Hne. unfold get.
    destruct (dict_lookup (_cache c) (_hash_key req')) eqn:E'; [|assumption].
    destruct (Qltb _ _); simpl; [|assumption].
    now rewrite dict_lookup_del_ne.
  - intros req' resp now_ms Hne Hlt. unfold set.
    destruct (not_cacheable resp); [assumption|].
    rewrite (evict_below_capacity c Hlt). simpl.
    now rewrite dict_lookup_store_ne.
Qed.

Lemma cache_get_lazy_expiry_witness :
  let c := run (init 50 10) [OpSet (req_of "test") (resp_of "value") 0%Q] in
  get c (req_of "test") 60%Q
    = (None, with_cache c (dict_del (_cache c) (_hash_key (req_of "test")))) /\
  get c (req_of "test") 50%Q = (Some (resp_of "value"), c).
Proof.
  intros c.
  destruct (cache_get_lazy_expiry 50 10
              [OpSet (req_of "test") (resp_of "value") 0%Q] (req_of "test")
              (mkCacheEntry (resp_of "value") 0%Q) eq_refl)
    as (Hexp & Hkeep & _).
  split.
  - apply Hexp. vm_compute. reflexivity.
  - apply Hkeep. vm_compute. discriminate.
Defined.

(** C10: at capacity, a [set] of a cacheable response whose
    fingerprint is already present still evicts an entry with the
    smallest timestamp before the overwrite; when that entry is
    another one, it is gone afterwards and the cache ends one below
    capacity.  Such a run exists. *)
Theorem cache_overwrite_at_capacity_evicts :
  (forall ttl_ms max_size ops req resp now_ms e0,
      let c := run (init ttl_ms max_size) ops in
      size c = max_size ->
      dict_lookup (_cache c) (_hash_key req) = Some e0 ->
      completion resp <> "" -> error resp = None ->
      exists k e,
        oldest_in c k e /\
        set c req resp now_ms =
          with_cache c (dict_store (dict_del (_cache c) k) (_hash_key req)
                                   (mkCacheEntry resp now_ms)) /\
        (k <> _hash_key req ->
         dict_lookup (_cache (set c req resp now_ms)) k = None /\
         size (set c req resp now_ms) = max_size - 1)) /\
  (exists ttl_ms max_size ops req resp now_ms,
      let c := run (init ttl_ms max_size) ops in
      size c = max_size /\
      dict_lookup (_cache c) (_hash_key req) <> None /\
      completion resp <> "" /\ error resp = None /\
      size (set c req resp now_ms) < max_size).
Proof.
  split.
  - intros ttl_ms max_size ops req resp now_ms e0 c Hsz Hl Hc He.
    assert (Hwf : wf c) by (apply run_wf, wf_init).
    assert (Hm : _max_size c = max_size)
      by (unfold c; now destruct (run_fields (init ttl_ms max_size) ops)).
    assert (Hne : _cache c <> []) by (intros E; rewrite E in Hl; discriminate).
    destruct (evict_at_capacity c Hwf Hne) as (k & e & Hold & Hev); [lia|].
    exists k, e. split; [assumption|].
    assert (Hset : set c req resp now_ms =
              with_cache c (dict_store (dict_del (_cache c) k) (_hash_key req)
                                       (mkCacheEntry resp now_ms))).
    { unfold set. rewrite (cacheable_of_fields _ Hc He), Hev. reflexivity. }
    split; [assumption|].
    intros Hk. rewrite Hset. simpl. split.
    + rewrite dict_lookup_store_ne by congruence.
      apply dict_lookup_del_eq, Hwf.
    + unfold size; simpl.
      rewrite (dict_len_store_present _ _ _ e0)
        by (rewrite dict_lookup_del_ne; assumption).
      destruct Hold as [Hlk _]. rewrite (dict_len_del _ _ _ Hlk).
      unfold size in Hsz. lia.
  - exists 10000, 2,
      [OpSet (req_of "1") (resp_of "one") 1%Q;
       OpSet (req_of "2") (resp_of "two") 2%Q],
      (req_of "2"), (resp_of "again"), 3%Q.
    vm_compute. repeat split; discriminate.
Qed.

Lemma cache_overwrite_at_capacity_evicts_witness :
  let c := run (init 10000 2)
             [OpSet (req_of "1") (resp_of "one") 1%Q;
              OpSet (req_of "2") (resp_of "two") 2%Q] in
  exists k e,
    oldest_in c k e /\
    set c (req_of "2") (resp_of "again") 3%Q =
      with_cache c (dict_store (dict_del (_cache c) k) (_hash_key (req_of "2"))
                               (mkCacheEntry (resp_of "again") 3%Q)) /\
    (k <> _hash_key (req_of "2") ->
     dict_lookup (_cache (set c (req_of "2") (resp_of "again") 3%Q)) k = None /\
     size (set c (req_of "2") (resp_of "again") 3%Q) = 2 - 1).
Proof.
  intros c.
  apply (proj1 cache_overwrite_at_capacity_evicts 10000 2
           [OpSet (req_of "1") (resp_of "one") 1%Q;
            OpSet (req_of "2") (resp_of "two") 2%Q]
           (req_of "2") (resp_of "again") 3%Q
           (mkCacheEntry (resp_of "two") 2%Q)).
  - reflexivity.
  - reflexivity.
  - discriminate.
  - reflexivity.
Defined.
End CacheClaims.

(** ** The rate limiter *)

Section LimiterClaims.
Import RateLimiter.

Lemma inject_Z_pos (z : Z) : 1 <= z -> (0 < inject_Z z)%Q.
Proof.
  intros H. change 0%Q with (inject_Z 0). rewrite <- Zlt_Qlt. lia.
Qed.

Lemma filter_repeat {A} (f : A -> bool) (x : A) (n : nat) :
  f x = true -> filter f (repeat x n) = repeat x n.
Proof.
  intros H. induction n as [|n IH]; simpl; [reflexivity|].
  now rewrite H, IH.
Qed.

Lemma filter_none {A} (f : A -> bool) (xs : list A) :
  (forall x, In x xs -> f x = false) -> filter f xs = [].
Proof.
  induction xs as [|x xs IH]; simpl; intros H; [reflexivity|].
  rewrite (H x) by now left. apply IH. intros y Hy. apply H. now right.
Qed.

Lemma live_immediate W N now k :
  1 <= W -> live (mkRateLimiter (repeat now k) W N) now = repeat now k.
Proof.
  intros HW. unfold live; simpl. apply filter_repeat.
  apply Qltb_true. pose proof (inject_Z_pos W HW). lra.
Qed.

(** After [k <= N] immediate calls the window holds [k] copies of [now]. *)
Lemma calls_immediate W N now k :
  1 <= W -> (k <= Z.to_nat N)%nat ->
  calls k (init W N) now = mkRateLimiter (repeat now k) W N.
Proof.
  intros HW. induction k as [|k IH]; intros Hk; [reflexivity|].
  unfold calls in *. simpl Nat.iter. rewrite IH by lia.
  unfold is_allowed. rewrite live_immediate by assumption.
  rewrite repeat_length. simpl _max_requests.
  destruct (Z.leb_spec N (Z.of_nat k)); [lia|].
  simpl. unfold with_requests; simpl. f_equal.
  symmetry. apply (repeat_cons k now).
Qed.

End LimiterClaims.

(** ** Metrics *)

Section MetricsClaims.
Import Metrics.

(** [round] returns an integer nearest to its argument. *)
Lemma py_round_nearest (x : Q) :
  (x - (1 # 2) <= inject_Z (py_round x) <= x + (1 # 2))%Q.
Proof.
  unfold py_round.
  pose proof (Qfloor_le x) as Hlo. pose proof (Qlt_floor x) as Hhi.
  rewrite inject_Z_plus in Hhi. change (inject_Z 1) with 1%Q in Hhi.
  destruct (Qltb (x - inject_Z (Qfloor x)) (1 # 2)) eqn:E1.
  { apply Qltb_true in E1. lra. }
  apply Qltb_false in E1.
  destruct (Qltb (1 # 2) (x - inject_Z (Qfloor x))) eqn:E2.
  { rewrite inject_Z_plus. change (inject_Z 1) with 1%Q. lra. }
  apply Qltb_false in E2.
  destruct (Z.even (Qfloor x)).
  - lra.
  - rewrite inject_Z_plus. change (inject_Z 1) with 1%Q. lra.
Qed.

Lemma skipn_S_tl {A} (k : nat) (l : list A) : skipn (S k) l = tl (skipn k l).
Proof.
  revert l. induction k as [|k IH]; intros [|a l]; try reflexivity.
  change (skipn (S (S k)) (a :: l)) with (skipn (S k) l).
  change (skipn (S k) (a :: l)) with (skipn k l). apply IH.
Qed.

(** The buffer holds the most recent 1000 samples. *)
Lemma push_response_time_recent (xs : list Q) (x : Q) :
  push_response_time (skipn (List.length xs - 1000) xs) x
  = skipn (List.length (xs ++ [x])%list - 1000) (xs ++ [x])%list.
Proof.
  unfold push_response_time, MAX_RESPONSE_TIMES.
  rewrite !length_app, length_skipn. simpl List.length.
  destruct (Nat.le_gt_cases 1000 (List.length xs)) as [Hge|Hlt].
  - destruct (Z.ltb_spec 1000
                (Z.of_nat (List.length xs - (List.length xs - 1000) + 1)));
      [|lia].
    replace (List.length xs + 1 - 1000)%nat
      with (S (List.length xs - 1000)) by lia.
    rewrite skipn_S_tl. f_equal.
    rewrite skipn_app.
    replace (List.length xs - 1000 - List.length xs)%nat with 0%nat by lia.
    reflexivity.
  - destruct (Z.ltb_spec 1000
                (Z.of_nat (List.length xs - (List.length xs - 1000) + 1)));
      [lia|].
    replace (List.length xs - 1000)%nat with 0%nat by lia.
    replace (List.length xs + 1 - 1000)%nat with 0%nat by lia.
    reflexivity.
Qed.

Lemma run_snoc m cs c : run m (cs ++ [c])%list = record (run m cs) c.
Proof. unfold run. now rewrite fold_left_app. Qed.

Definition samples (cs : list Call) : list Q := map c_response_time_ms cs.

(** The samples the average is taken over. *)
Definition recent (cs : list Call) : list Q :=
  skipn (List.length cs - 1000) (samples cs).

Definition hit_count (cs : list Call) : Z :=
  Z.of_nat (List.length (filter c_cache_hit cs)).


Lemma run_state (cs : list Call) :
  _total_requests (run init cs) = Z.of_nat (List.length cs) /\
  _cache_hits (run init cs) = hit_count cs /\
  _response_times (run init cs) = recent cs.
Proof.
  induction cs as [|c cs IH] using rev_ind; [repeat split|].
  destruct IH as (Ht & Hh & Hr). rewrite run_snoc.
  unfold record, record_request; simpl. rewrite Ht, Hh, Hr.
  split; [|split].
  - rewrite length_app. simpl. lia.
  - unfold hit_count. rewrite filter_app, length_app. simpl.
    destruct (c_cache_hit c); simpl; lia.
  - unfold recent, samples. rewrite map_app. simpl map.
    rewrite <- (length_map c_response_time_ms cs).
    rewrite push_response_time_recent.
    now rewrite !length_app, !length_map.
Qed.

Lemma recent_length (cs : list Call) :
  List.length (recent cs) = Nat.min (List.length cs) 1000.
Proof.
  unfold recent, samples. rewrite length_skipn, length_map. lia.
Qed.

(** [get_metrics] is the snapshot under exact arithmetic. *)
Lemma get_metrics_exact (m : Metrics.Metrics) :
  Metrics.get_metrics m = get_metrics_float exact_arith m.
Proof. reflexivity. Qed.





(** In binary64 the program's values at 23 hits of 40 and at 109 hits
    of 200 are the floats [0.57] and [0.55]. *)
Lemma binary64_hit_rate_at_ties :
  cacheHitRate (get_metrics_float binary64_arith
                  (Metrics.mkMetrics 40 23 [] [] 0)) = binary64 (57 # 100) /\
  cacheHitRate (get_metrics_float binary64_arith
                  (Metrics.mkMetrics 200 109 [] [] 0)) = binary64 (55 # 100).
Proof. split; vm_compute; reflexivity. Qed.
End MetricsClaims.

(** ** The output cleaner *)

Section CleanerClaims.







End CleanerClaims.

(** ** The pipelines *)

Section PipelineClaims.
Variable env : Env.

(** The world after one reading of the clock. *)
Definition after_tick (w : World) : World :=
  mkWorld (completion_cache w) (metrics w) (S (clock_reads w)) (backend_calls w).

(** The world after the outcome of a backend call that left the world
    [w2] has been recorded: the clock is read for the elapsed time and
    the request is counted, as an error or not. *)
Definition recorded_world (w2 : World) (model : string) (start_time : Q)
           (is_error : bool) : World :=
  mkWorld (completion_cache w2)
          (Metrics.record_request (metrics w2) model
             (clock env (clock_reads w2) - start_time)%Q false is_error)
          (S (clock_reads w2)) (backend_calls w2).

(** The message of the envelope, by the class of the exception. *)
Definition failure_message (e : Exn) : string :=
  match exn_class e with
  | TimeoutError => "Request timed out"
  | CLINotFoundError => CLI_NOT_FOUND_MESSAGE
  | CLIConnectionError => "Failed to connect to Claude Code CLI: " ++ exn_str e
  | ProcessError =>
      "Claude Code CLI process failed (exit code: " ++ format_exit_code e ++ ")"
  | CLIJSONDecodeError => "Failed to parse Claude Code response: " ++ exn_str e
  | ClaudeSDKError => "Claude SDK error: " ++ exn_str e
  | Exception_ => if str_truthy (exn_str e) then exn_str e else "Unknown error"
  end.


(** Every exception finds its clause. *)
Lemma dispatch_failure_handlers {A} model start_time (reply : string -> A) e w :
  dispatch (failure_handlers env model start_time reply) e w
  = (Ok (reply (failure_message e)), recorded_world w model start_time true).
Proof.
  destruct e as [c s x]. unfold failure_message. destruct c; reflexivity.
Qed.

Lemma try_failure_handlers {A} (body : M A) model start_time reply w :
  try_except body (failure_handlers env model start_time reply) w
  = match body w with
    | (Ok a, w') => (Ok a, w')
    | (Raise e, w') =>
        (Ok (reply (failure_message e)), recorded_world w' model start_time true)
    end.
Proof.
  unfold try_except. destruct (body w) as [[a|e] w']; [reflexivity|].
  apply dispatch_failure_handlers.
Qed.

(** The world after the client wrapper: one invocation is logged when
    the timeout resolves, nothing changes when it does not. *)
Definition invoked (w : World) (call : BackendCall) : World :=
  mkWorld (completion_cache w) (metrics w) (clock_reads w)
          (backend_calls w ++ [call])%list.

Lemma get_claude_completion_run prompt system_prompt model timeout_override w :
  match resolve_timeout env model timeout_override with
  | Ok t =>
      let call := mkBackendCall prompt system_prompt model 1 t in
      snd (get_claude_completion env prompt system_prompt model timeout_override w)
        = invoked w call /\
      match query env (List.length (backend_calls w)) call with
      | Ok text =>
          fst (get_claude_completion env prompt system_prompt model
                 timeout_override w) = Ok text
      | Raise e =>
          exists e',
          fst (get_claude_completion env prompt system_prompt model
                 timeout_override w) = Raise e' /\
          exn_class e' = exn_class e
      end
  | Raise e =>
      get_claude_completion env prompt system_prompt model timeout_override w
      = (Raise e, w)
  end.
Proof.
  unfold get_claude_completion, bind, lift.
  destruct (resolve_timeout env model timeout_override) as [t|e]; [|reflexivity].
  unfold try_except, run_query.
  destruct (query env (List.length (backend_calls w))
              (mkBackendCall prompt system_prompt model 1 t)) as [text|e].
  - split; reflexivity.
  - destruct e as [c s x]. destruct c; simpl; split; try reflexivity;
      eexists; split; reflexivity.
Qed.

Lemma get_claude_completion_frame prompt system_prompt model timeout_override w :
  let w' := snd (get_claude_completion env prompt system_prompt model
                   timeout_override w) in
  completion_cache w' = completion_cache w /\ metrics w' = metrics w /\
  clock_reads w' = clock_reads w.
Proof.
  pose proof (get_claude_completion_run prompt system_prompt model
                timeout_override w) as H.
  destruct (resolve_timeout env model timeout_override).
  - destruct H as [-> _]. simpl. auto.
  - rewrite H. simpl. auto.
Qed.

Lemma clean_completion_rejected text max_length cleaned reason :
  clean_completion text max_length = (cleaned, Some reason) ->
  cleaned = "" /\ str_truthy reason = true.
Proof.
  unfold clean_completion.
  destruct (find _ _).
  - intros [= <- <-]. split; reflexivity.
  - destruct (max_length <? _); [|discriminate].
    intros [= <- <-]. split; reflexivity.
Qed.

(** The arguments the completion pipeline passes to the client. *)
Definition completion_prompt (req : CompletionRequest) : string :=
  get_user_prompt env (language req) (opt_str_or (filename req) "unknown")
                  (prefix req) (str_or (suffix req) "").

Definition completion_model (req : CompletionRequest) : string :=
  str_or (model req) "haiku".

Definition completion_backend (req : CompletionRequest) : M string :=
  get_claude_completion env (completion_prompt req)
    (get_system_prompt env (multiline req)) (completion_model req) None.

Definition modification_model (req : ModifyRequest) : string :=
  str_or (m_model req) "opus".

Definition modification_backend (req : ModifyRequest) : M string :=
  get_claude_completion env
    (get_modify_user_prompt env (m_language req) (m_code req)
       (m_instruction req) (str_or (m_prefix req) "") (str_or (m_suffix req) ""))
    (get_modify_system_prompt env) (modification_model req) None.

(** The completion pipeline after a cache miss that left the world [w1]. *)
Lemma get_completion_miss req request_id w w1 :
  cache_get env req (after_tick w) = (Ok None, w1) ->
  get_completion env req request_id w
  = try_except
      (completion_text <- completion_backend req ;;
       let cleaned := clean_completion completion_text
                        (if multiline req then 1000 else 200) in
       t <- time_ms env ;;
       let elapsed := (t - clock env (clock_reads w))%Q in
       if opt_str_truthy (snd cleaned) then
         record_request (completion_model req) elapsed false false ;;;
         ret (mkCompletionResponse "" None request_id)
       else
         let response := mkCompletionResponse (fst cleaned) None request_id in
         cache_set env req response ;;;
         record_request (completion_model req) elapsed false false ;;;
         ret response)
      (failure_handlers env (completion_model req) (clock env (clock_reads w))
         (fun error_msg => mkCompletionResponse "" (Some error_msg) request_id))
      w1.
Proof.
  intros Hmiss. unfold get_completion, bind at 1. unfold time_ms at 1.
  unfold bind at 1. fold (after_tick w). rewrite Hmiss. reflexivity.
Qed.

Lemma get_completion_total req request_id w :
  exists resp w', get_completion env req request_id w = (Ok resp, w').
Proof.
  destruct (cache_get env req (after_tick w)) as [[[cached|]|e] w1] eqn:Hget.
  - unfold get_completion, bind at 1. unfold time_ms at 1.
    unfold bind at 1. fold (after_tick w). rewrite Hget.
    eexists. eexists. reflexivity.
  - rewrite (get_completion_miss _ _ _ _ Hget), try_failure_handlers.
    match goal with |- context [match ?b w1 with _ => _ end] =>
      destruct (b w1) as [[a|e] w2] end; eexists; eexists; reflexivity.
  - exfalso. unfold cache_get in Hget.
    destruct (dict_lookup _ _); discriminate.
Qed.

Lemma get_modification_unfold req request_id w :
  get_modification env req request_id w
  = try_except
      (modified_text <- modification_backend req ;;
       let cleaned_code := clean_modification modified_text in
       t <- time_ms env ;;
       record_request (modification_model req)
         (t - clock env (clock_reads w))%Q false false ;;;
       ret (mkModifyResponse cleaned_code None request_id))
      (failure_handlers env (modification_model req) (clock env (clock_reads w))
         (fun error_msg => mkModifyResponse "" (Some error_msg) request_id))
      (after_tick w).
Proof. reflexivity. Qed.

Lemma get_modification_total req request_id w :
  exists resp w', get_modification env req request_id w = (Ok resp, w').
Proof.
  rewrite get_modification_unfold, try_failure_handlers.
  match goal with |- context [match ?b ?w0 with _ => _ end] =>
    destruct (b w0) as [[a|e] w2] end; eexists; eexists; reflexivity.
Qed.

Lemma cache_get_frame req w r w1 :
  cache_get env req w = (r, w1) ->
  metrics w1 = metrics w /\ backend_calls w1 = backend_calls w.
Proof.
  unfold cache_get. destruct (dict_lookup _ _); intros [= <- <-]; auto.
Qed.


(** C7: when the cleaner rejects the backend's text (a conversational
    pattern or the length), the completion pipeline returns an
    envelope with empty text and no error, records the request with
    [error=False], and leaves the cache as the lookup left it; a
    [set] with an empty completion stores nothing. *)
Theorem rejected_completion_is_empty_success :
  (forall req request_id w w1 text w2 cleaned reason,
      cache_get env req (after_tick w) = (Ok None, w1) ->
      completion_backend req w1 = (Ok text, w2) ->
      clean_completion text (if multiline req then 1000 else 200)
        = (cleaned, Some reason) ->
      let w' := recorded_world w2 (completion_model req)
                  (clock env (clock_reads w)) false in
      get_completion env req request_id w
        = (Ok (mkCompletionResponse "" None request_id), w') /\
      completion_cache w' = completion_cache w1 /\
      Metrics._error_count (metrics w') = Metrics._error_count (metrics w) /\
      Metrics._total_requests (metrics w')
        = Metrics._total_requests (metrics w) + 1) /\
  (forall c req err request_id now_ms,
      Cache.set c req (mkCompletionResponse "" err request_id) now_ms = c).
Proof.
  split.
  - intros req request_id w w1 text w2 cleaned reason Hmiss Hback Hclean w'.
    destruct (clean_completion_rejected _ _ _ _ Hclean) as [-> Htruthy].
    pose proof (get_claude_completion_frame
                  (completion_prompt req) (get_system_prompt env (multiline req))
                  (completion_model req) None w1) as Hframe.
    fold (completion_backend req) in Hframe. rewrite Hback in Hframe.
    simpl in Hframe. destruct Hframe as (Hc & Hm & _).
    destruct (cache_get_frame _ _ _ _ Hmiss) as [Hm1 _]. simpl in Hm1.
    split; [|split; [exact Hc|split]].
    + rewrite (get_completion_miss _ _ _ _ Hmiss), try_failure_handlers.
      unfold bind at 1. rewrite Hback. cbv zeta. rewrite Hclean.
      simpl snd. simpl opt_str_truthy. rewrite Htruthy. reflexivity.
    + unfold w'. simpl. now rewrite Hm, Hm1.
    + unfold w'. simpl. now rewrite Hm, Hm1.
  - intros c req err request_id now_ms. reflexivity.
Qed.

(** The calls logged by the completion pipeline after a miss are
    those of its one use of the client wrapper. *)
Lemma get_completion_calls req request_id w w1 :
  cache_get env req (after_tick w) = (Ok None, w1) ->
  backend_calls (snd (get_completion env req request_id w))
  = backend_calls (snd (completion_backend req w1)).
Proof.
  intros Hmiss.
  rewrite (get_completion_miss _ _ _ _ Hmiss), try_failure_handlers.
  unfold bind at 1.
  destruct (completion_backend req w1) as [[text|e] w2]; [|reflexivity].
  cbv zeta. destruct (opt_str_truthy _); [reflexivity|].
  unfold bind, time_ms, cache_set, record_request, ret. simpl.
  destruct (Cache.not_cacheable _); reflexivity.
Qed.

Lemma get_modification_calls req request_id w :
  backend_calls (snd (get_modification env req request_id w))
  = backend_calls (snd (modification_backend req (after_tick w))).
Proof.
  rewrite get_modification_unfold, try_failure_handlers.
  unfold bind at 1.
  destruct (modification_backend req (after_tick w)) as [[text|e] w2];
    reflexivity.
Qed.

(** The timeout, in seconds, is [ms] milliseconds. *)
Definition resolves_to_ms (r : Result Q) (ms : Z) : Prop :=
  exists t, r = Ok t /\ (t * 1000 == inject_Z ms)%Q.

Lemma ms_seconds (ms : Z) : (inject_Z ms / 1000 * 1000 == inject_Z ms)%Q.
Proof. field. Qed.

(** A per-request override is not in force: absent, or zero. *)
Definition no_override (timeout_override : option Z) : Prop :=
  timeout_override = None \/ timeout_override = Some 0.

(** The environment override is not in force: unset, or empty. *)
Definition no_environment_override : Prop :=
  environ_COMPLETION_TIMEOUT_MS env = None \/
  environ_COMPLETION_TIMEOUT_MS env = Some "".

(** C8 (amended): the timeout of a backend invocation is the
    per-request override when one is given and is not zero; otherwise
    the value of COMPLETION_TIMEOUT_MS when it is set to a non-empty
    integer; otherwise 5,000 ms for haiku, 10,000 ms for sonnet,
    30,000 ms for opus, and 5,000 ms for any other model.  A request
    that reaches the backend invokes it once, whatever the outcome. *)
Theorem timeout_precedence_single_attempt :
  (forall model ms, ms <> 0 ->
      resolves_to_ms (resolve_timeout env model (Some ms)) ms) /\
  (forall model timeout_override s ms,
      no_override timeout_override ->
      environ_COMPLETION_TIMEOUT_MS env = Some s -> s <> "" ->
      py_int s = Some ms ->
      resolves_to_ms (resolve_timeout env model timeout_override) ms) /\
  (forall model timeout_override,
      no_override timeout_override -> no_environment_override ->
      (model = "haiku" ->
       resolves_to_ms (resolve_timeout env model timeout_override) 5000) /\
      (model = "sonnet" ->
       resolves_to_ms (resolve_timeout env model timeout_override) 10000) /\
      (model = "opus" ->
       resolves_to_ms (resolve_timeout env model timeout_override) 30000) /\
      (model <> "haiku" -> model <> "sonnet" -> model <> "opus" ->
       resolves_to_ms (resolve_timeout env model timeout_override) 5000)) /\
  (forall req request_id w w1 t,
      cache_get env req (after_tick w) = (Ok None, w1) ->
      resolve_timeout env (completion_model req) None = Ok t ->
      backend_calls (snd (get_completion env req request_id w))
      = (backend_calls w
         ++ [mkBackendCall (completion_prompt req)
               (get_system_prompt env (multiline req))
               (completion_model req) 1 t])%list) /\
  (forall req request_id w t,
      resolve_timeout env (modification_model req) None = Ok t ->
      exists call,
        bc_timeout call = t /\ bc_model call = modification_model req /\
        backend_calls (snd (get_modification env req request_id w))
        = (backend_calls w ++ [call])%list).
Proof.
  assert (Hdefault : forall model timeout_override,
            no_override timeout_override -> no_environment_override ->
            resolve_timeout env model timeout_override
            = Ok (match dict_lookup MODEL_TIMEOUTS model with
                  | Some t => t
                  | None => DEFAULT_TIMEOUT
                  end)).
  { intros model ov Hov Henv. unfold resolve_timeout, get_timeout.
    generalize (dict_lookup MODEL_TIMEOUTS model). intros d.
    destruct Hov as [-> | ->]; destruct Henv as [-> | ->]; simpl;
      destruct d; reflexivity. }
  split; [|split; [|split; [|split]]].
  - intros model ms Hms. unfold resolve_timeout.
    destruct (Z.eqb_spec ms 0); [contradiction|].
    eexists. split; [reflexivity|apply ms_seconds].
  - intros model ov s ms Hov Henv Hs Hint.
    assert (Hget : get_timeout env model = Ok (inject_Z ms / 1000)%Q).
    { unfold get_timeout. rewrite Henv.
      destruct s; [congruence|]. simpl str_truthy. cbv iota. now rewrite Hint. }
    exists (inject_Z ms / 1000)%Q. split; [|apply ms_seconds].
    unfold resolve_timeout. destruct Hov as [-> | ->]; simpl; assumption.
  - intros model ov Hov Henv.
    rewrite (Hdefault model ov Hov Henv).
    split; [|split; [|split]].
    + intros ->. eexists. split; reflexivity.
    + intros ->. eexists. split; reflexivity.
    + intros ->. eexists. split; reflexivity.
    + intros H1 H2 H3. exists DEFAULT_TIMEOUT. split; [|reflexivity].
      simpl. apply String.eqb_neq in H1, H2, H3. now rewrite H1, H2, H3.
  - intros req request_id w w1 t Hmiss Ht.
    rewrite (get_completion_calls _ _ _ _ Hmiss).
    pose proof (get_claude_completion_run
                  (completion_prompt req) (get_system_prompt env (multiline req))
                  (completion_model req) None w1) as Hrun.
    rewrite Ht in Hrun. destruct Hrun as [Hrun _].
    unfold completion_backend. rewrite Hrun. simpl.
    destruct (cache_get_frame _ _ _ _ Hmiss) as [_ ->]. reflexivity.
  - intros req request_id w t Ht.
    rewrite get_modification_calls.
    match goal with |- context [modification_backend req ?w0] =>
      pose proof (get_claude_completion_run
        (get_modify_user_prompt env (m_language req) (m_code req)
           (m_instruction req) (str_or (m_prefix req) "")
           (str_or (m_suffix req) ""))
        (get_modify_system_prompt env) (modification_model req) None w0) as Hrun
    end.
    rewrite Ht in Hrun. destruct Hrun as [Hrun _].
    eexists. split; [|split]; [| |unfold modification_backend; rewrite Hrun;
                                  reflexivity]; reflexivity.
Qed.
End PipelineClaims.

(** ** Concrete runs *)

Section Runs.

(** An environment whose clock ticks by one millisecond, whose SDK
    answers every invocation with [outcome], and with the given
    value of COMPLETION_TIMEOUT_MS. *)
Definition run_env (environ : option string) (outcome : Result string) : Env :=
  mkEnv (fun k => inject_Z (Z.of_nat k)) environ (fun _ _ => outcome)
        (fun _ => "system") (fun _ _ p _ => p)
        "modify" (fun _ c _ _ _ => c)
        (fun _ => "5.0") (fun s => s).

Definition fresh_world : World :=
  mkWorld (Cache.init 30000 100) Metrics.init 0 [].

Definition a_request : CompletionRequest :=
  mkCompletionRequest "const x = " "" "typescript" None "haiku" None false.



Lemma rejected_completion_is_empty_success_witness :
  fst (get_completion (run_env None (Ok "I need more context")) a_request None
         fresh_world)
  = Ok (mkCompletionResponse "" None None).
Proof.
  pose proof (rejected_completion_is_empty_success
                (run_env None (Ok "I need more context"))) as [H _].
  destruct (H a_request None fresh_world (after_tick fresh_world)
              "I need more context"
              (invoked (after_tick fresh_world)
                 (mkBackendCall "const x = " "system" "haiku" 1 5%Q))
              ""
              "Filtered conversational response: ^I (need|cannot|can't|don't|would|could)")
    as [Hrun _].
  - reflexivity.
  - reflexivity.
  - reflexivity.
  - rewrite Hrun. reflexivity.
Defined.

(** The precedence as C8 states it: an override that is present wins. *)
Definition override_always_wins : Prop :=
  forall env model timeout_override ms,
    timeout_override = Some ms ->
    resolves_to_ms (resolve_timeout env model timeout_override) ms.

(** C8, as stated, fails: an override of 0 ms is present and is not
    used; for opus and no environment override the invocation runs
    under the 30 s default. *)
Lemma zero_override_is_ignored : ~ override_always_wins.
Proof.
  intros H.
  destruct (H (run_env None (Ok "42")) "opus" (Some 0) 0 eq_refl)
    as (t & Ht & Hms).
  vm_compute in Ht. injection Ht as <-. vm_compute in Hms. discriminate.
Qed.

Lemma timeout_precedence_single_attempt_witness :
  resolves_to_ms (resolve_timeout (run_env (Some "7000") (Ok "42")) "sonnet"
                    (Some 2500)) 2500 /\
  resolves_to_ms (resolve_timeout (run_env (Some "7000") (Ok "42")) "sonnet"
                    None) 7000 /\
  resolves_to_ms (resolve_timeout (run_env None (Ok "42")) "sonnet" None) 10000 /\
  backend_calls (snd (get_completion (run_env None (Ok "42")) a_request None
                        fresh_world))
  = [mkBackendCall "const x = " "system" "haiku" 1 5%Q].
Proof.
  split; [|split; [|split]].
  - apply (proj1 (timeout_precedence_single_attempt _)). discriminate.
  - apply (proj1 (proj2 (timeout_precedence_single_attempt _))
             "sonnet" None "7000" 7000).
    + now left.
    + reflexivity.
    + discriminate.
    + reflexivity.
  - apply (proj1 (proj2 (proj2 (timeout_precedence_single_attempt _)))
             "sonnet" None).
    + now left.
    + now left.
    + reflexivity.
  - apply (proj1 (proj2 (proj2 (proj2
             (timeout_precedence_single_attempt (run_env None (Ok "42"))))))
             a_request None fresh_world (after_tick fresh_world) 5%Q).
    + reflexivity.
    + reflexivity.
Defined.

Definition three_calls : list Metrics.Call :=
  [ Metrics.mkCall "haiku" 5%Q true false;
    Metrics.mkCall "haiku" 100%Q false false;
    Metrics.mkCall "haiku" 3%Q true false ].

End Runs.

(* ================================================================== *)
(** * Further properties of the components *)
(* ================================================================== *)

(** ** Strings *)

Lemma str_length_app (a b : string) :
  String.length (a ++ b) = (String.length a + String.length b)%nat.
Proof. induction a as [|c a IH]; simpl; [reflexivity|now rewrite IH]. Qed.

Lemma str_app_assoc (a b c : string) : (a ++ b) ++ c = a ++ (b ++ c).
Proof. induction a as [|x a IH]; simpl; [reflexivity|now rewrite IH]. Qed.

Lemma str_app_inj_l (a x y : string) : a ++ x = a ++ y -> x = y.
Proof. induction a as [|c a IH]; simpl; [auto|]. intros [= H]. auto. Qed.

Lemma str_app_inj_r (a b c : string) : a ++ c = b ++ c -> a = b.
Proof.
  revert b. induction a as [|x a IH]; intros [|y b] H; simpl in H.
  - reflexivity.
  - apply (f_equal String.length) in H. simpl in H.
    rewrite str_length_app in H. lia.
  - apply (f_equal String.length) in H. simpl in H.
    rewrite str_length_app in H. lia.
  - injection H as -> H. f_equal. now apply IH.
Qed.

Lemma substring_whole (s : string) : substring 0 (String.length s) s = s.
Proof. induction s as [|c s IH]; simpl; [reflexivity|now rewrite IH]. Qed.

Lemma substring_head_app (s x : string) :
  substring 0 (String.length s) (s ++ x) = s.
Proof.
  induction s as [|c s IH]; simpl.
  - destruct x; reflexivity.
  - now rewrite IH.
Qed.

Lemma substring_tail_app (a p : string) :
  substring (String.length a) (String.length p) (a ++ p) = p.
Proof.
  induction a as [|c a IH]; simpl; [apply substring_whole|assumption].
Qed.

(** ** The cache: fingerprints and eviction order *)

Section CacheFingerprints.
Import Cache CacheFacts.

Definition with_prefix (req : CompletionRequest) (p : string) : CompletionRequest :=
  mkCompletionRequest p (suffix req) (language req) (filename req) (model req)
                      (max_tokens req) (multiline req).

Definition with_suffix (req : CompletionRequest) (s : string) : CompletionRequest :=
  mkCompletionRequest (prefix req) s (language req) (filename req) (model req)
                      (max_tokens req) (multiline req).

(** The fingerprint reads the last 500 characters of the prefix and
    the first 200 of the suffix only: requests that agree there, and
    in language and model, share one cache entry. *)
Theorem fingerprint_ignores_text_beyond_window req a b p s x y :
  String.length p = 500%nat -> String.length s = 200%nat ->
  _hash_key (with_prefix req (a ++ p)) = _hash_key (with_prefix req (b ++ p)) /\
  _hash_key (with_suffix req (s ++ x)) = _hash_key (with_suffix req (s ++ y)).
Proof.
  intros Hp Hs. split.
  - assert (Htail : forall a0,
              (if 500 <? len (a0 ++ p) then str_tail 500 (a0 ++ p) else a0 ++ p) = p).
    { intros a0. unfold len, str_tail. rewrite str_length_app, Hp.
      destruct (Z.ltb_spec 500 (Z.of_nat (String.length a0 + 500))).
      - replace (String.length a0 + 500 - 500)%nat with (String.length a0) by lia.
        rewrite <- Hp. apply substring_tail_app.
      - destruct a0; [reflexivity|simpl in *; lia]. }
    unfold _hash_key, with_prefix; simpl. now rewrite !Htail.
  - assert (Hhead : forall x0, str_head 200 (str_or (s ++ x0) "") = s).
    { intros x0. unfold str_or.
      destruct (str_truthy (s ++ x0)) eqn:E.
      - unfold str_head. rewrite <- Hs. apply substring_head_app.
      - destruct s; [discriminate Hs|discriminate E]. }
    unfold _hash_key, with_suffix; simpl. now rewrite !Hhead.
Qed.

Lemma fingerprint_ignores_text_beyond_window_witness :
  let p := string_of_list_ascii (repeat "x"%char 500) in
  let s := string_of_list_ascii (repeat "y"%char 200) in
  _hash_key (with_prefix (req_of "") ("import a" ++ p))
    = _hash_key (with_prefix (req_of "") ("import b" ++ p)) /\
  _hash_key (with_suffix (req_of "") (s ++ "}"))
    = _hash_key (with_suffix (req_of "") (s ++ "]")).
Proof.
  intros p s.
  apply (fingerprint_ignores_text_beyond_window (req_of "") "import a" "import b"
           p s "}" "]"); reflexivity.
Defined.

(** Two requests with the same prefix and suffix that differ in the
    language only, or in the model only, have different fingerprints;
    below capacity, storing a response for one leaves what [get]
    answers for the other. *)
Theorem fingerprint_separates_language_and_model r1 r2 :
  prefix r1 = prefix r2 -> suffix r1 = suffix r2 ->
  (model r1 = model r2 /\ language r1 <> language r2) \/
  (language r1 = language r2 /\ model r1 <> "" /\ model r2 <> "" /\
   model r1 <> model r2) ->
  _hash_key r1 <> _hash_key r2 /\
  forall c resp t t',
    size c < _max_size c ->
    fst (get (set c r1 resp t) r2 t') = fst (get c r2 t').
Proof.
  intros Hp Hs Hdiff.
  assert (Hne : _hash_key r1 <> _hash_key r2).
  { unfold _hash_key. rewrite Hp, Hs.
    set (tl := ":" ++ (if 500 <? len (prefix r2)
                       then str_tail 500 (prefix r2) else prefix r2)
                 ++ ":" ++ str_head 200 (str_or (suffix r2) "")).
    destruct Hdiff as [[Hm Hl]|(Hl & H1 & H2 & Hm)].
    - rewrite Hm. intros H.
      change (language r1 ++ (":" ++ str_or (model r2) "haiku" ++ tl)
              = language r2 ++ (":" ++ str_or (model r2) "haiku" ++ tl)) in H.
      apply str_app_inj_r in H. contradiction.
    - rewrite Hl. intros H.
      apply str_app_inj_l in H. apply (str_app_inj_l ":") in H.
      apply str_app_inj_r in H. unfold str_or in H.
      destruct (model r1), (model r2); simpl in H; congruence. }
  split; [assumption|].
  intros c resp t t' Hlt.
  assert (Hl : dict_lookup (_cache (set c r1 resp t)) (_hash_key r2)
               = dict_lookup (_cache c) (_hash_key r2)).
  { unfold set. destruct (not_cacheable resp); [reflexivity|].
    rewrite (evict_below_capacity c Hlt). simpl.
    now apply dict_lookup_store_ne. }
  unfold get. rewrite Hl.
  destruct (set_fields c r1 resp t) as [-> _].
  destruct (dict_lookup (_cache c) (_hash_key r2)); [|reflexivity].
  destruct (Qltb _ _); reflexivity.
Qed.

Lemma fingerprint_separates_language_and_model_witness :
  let ts := mkCompletionRequest "test" "" "typescript" None "haiku" None false in
  let py := mkCompletionRequest "test" "" "python" None "haiku" None false in
  _hash_key ts <> _hash_key py /\
  fst (get (set (init 1000 10) ts (resp_of "ts-completion") 0%Q) py 1%Q) = None.
Proof.
  intros ts py.
  destruct (fingerprint_separates_language_and_model ts py eq_refl eq_refl)
    as [Hne Hget].
  - left. split; [reflexivity|discriminate].
  - split; [exact Hne|]. rewrite Hget; [reflexivity|]. vm_compute. reflexivity.
Defined.

(** Eviction goes by insertion time, not by use: at capacity, the
    entry with the strictly smallest timestamp is evicted by the next
    [set] of a new fingerprint even when a [get] has just returned it. *)
Theorem cache_read_does_not_protect_from_eviction
        ttl_ms max_size ops req_old req_new resp now_get now_set e :
  let c := run (init ttl_ms max_size) ops in
  max_size <= size c ->
  dict_lookup (_cache c) (_hash_key req_old) = Some e ->
  (forall k' e', dict_lookup (_cache c) k' = Some e' ->
                 k' <> _hash_key req_old ->
                 (timestamp e < timestamp e')%Q) ->
  (now_get - timestamp e <= inject_Z ttl_ms)%Q ->
  completion resp <> "" -> error resp = None ->
  _hash_key req_new <> _hash_key req_old ->
  get c req_old now_get = (Some (response e), c) /\
  dict_lookup (_cache (set (snd (get c req_old now_get)) req_new resp now_set))
              (_hash_key req_old) = None.
Proof.
  intros c Hcap Hl Hstrict Hfresh Hc He Hnew.
  assert (Hwf : wf c) by (apply run_wf, wf_init).
  assert (Httl : _ttl_ms c = ttl_ms)
    by (unfold c; now destruct (run_fields (init ttl_ms max_size) ops)).
  assert (Hm : _max_size c = max_size)
    by (unfold c; now destruct (run_fields (init ttl_ms max_size) ops)).
  assert (Hget : get c req_old now_get = (Some (response e), c)).
  { unfold get. rewrite Hl, Httl.
    destruct (Qltb _ _) eqn:E; [|reflexivity].
    apply Qltb_true in E. lra. }
  split; [assumption|]. rewrite Hget. simpl snd.
  assert (Hne : _cache c <> []) by (intros E; rewrite E in Hl; discriminate).
  destruct (evict_at_capacity c Hwf Hne) as (k & e' & [Hk Hmin] & Hev); [lia|].
  assert (k = _hash_key req_old) as ->.
  { destruct (string_dec k (_hash_key req_old)) as [|Hd]; [assumption|].
    specialize (Hstrict _ _ Hk Hd). specialize (Hmin _ _ Hl). lra. }
  unfold set. rewrite (cacheable_of_fields _ Hc He), Hev. simpl.
  rewrite dict_lookup_store_ne by assumption.
  apply dict_lookup_del_eq, Hwf.
Qed.

Lemma cache_read_does_not_protect_from_eviction_witness :
  let c := run (init 10000 2)
             [OpSet (req_of "1") (resp_of "one") 1%Q;
              OpSet (req_of "2") (resp_of "two") 2%Q] in
  get c (req_of "1") 3%Q = (Some (resp_of "one"), c) /\
  dict_lookup
    (_cache (set (snd (get c (req_of "1") 3%Q)) (req_of "3") (resp_of "three") 4%Q))
    (_hash_key (req_of "1")) = None.
Proof.
  intros c.
  apply (cache_read_does_not_protect_from_eviction 10000 2
           [OpSet (req_of "1") (resp_of "one") 1%Q;
            OpSet (req_of "2") (resp_of "two") 2%Q]
           (req_of "1") (req_of "3") (resp_of "three") 3%Q 4%Q
           (mkCacheEntry (resp_of "one") 1%Q)).
  - vm_compute. discriminate.
  - reflexivity.
  - intros k' e' Hk Hd.
    change (dict_lookup
              [("ts:haiku:1:", mkCacheEntry (resp_of "one") 1%Q);
               ("ts:haiku:2:", mkCacheEntry (resp_of "two") 2%Q)] k' = Some e')
      in Hk.
    change (k' <> "ts:haiku:1:") in Hd.
    cbn [dict_lookup] in Hk.
    destruct (String.eqb k' "ts:haiku:1:") eqn:E1.
    + apply String.eqb_eq in E1. contradiction.
    + destruct (String.eqb k' "ts:haiku:2:"); [|discriminate].
      injection Hk as <-. reflexivity.
  - vm_compute. discriminate.
  - discriminate.
  - reflexivity.
  - discriminate.
Defined.
End CacheFingerprints.

(** ** The rate limiter: the window along a run *)

Section LimiterRuns.
Import RateLimiter.

Lemma filter_idempotent {A} (f : A -> bool) (l : list A) :
  filter f (filter f l) = filter f l.
Proof.
  induction l as [|x l IH]; simpl; [reflexivity|].
  destruct (f x) eqn:E; simpl; [rewrite E; now f_equal|assumption].
Qed.

Lemma live_length l now : (List.length (live l now) <= List.length (_requests l))%nat.
Proof. unfold live. apply filter_length_le. Qed.

Lemma limiter_step_fields l o :
  _window_ms (limiter_step l o) = _window_ms l /\
  _max_requests (limiter_step l o) = _max_requests l.
Proof.
  destruct o; simpl; auto. unfold is_allowed.
  destruct (_max_requests l <=? _); simpl; auto.
Qed.

Lemma limiter_step_bound l o :
  Z.of_nat (List.length (_requests l)) <= Z.max 0 (_max_requests l) ->
  Z.of_nat (List.length (_requests (limiter_step l o)))
    <= Z.max 0 (_max_requests l).
Proof.
  intros H. destruct o as [now|now|]; simpl.
  - unfold is_allowed. pose proof (live_length l now) as Hl.
    destruct (Z.leb_spec (_max_requests l) (Z.of_nat (List.length (live l now))));
      simpl.
    + lia.
    + rewrite length_app. simpl. lia.
  - pose proof (live_length l now). lia.
  - lia.
Qed.

Lemma limiter_run_bound l ops :
  Z.of_nat (List.length (_requests l)) <= Z.max 0 (_max_requests l) ->
  Z.of_nat (List.length (_requests (limiter_run l ops)))
    <= Z.max 0 (_max_requests l) /\
  _window_ms (limiter_run l ops) = _window_ms l /\
  _max_requests (limiter_run l ops) = _max_requests l.
Proof.
  revert l. induction ops as [|o ops IH]; intros l H; simpl; [auto|].
  destruct (limiter_step_fields l o) as [Hw Hm].
  destruct (IH (limiter_step l o)) as (H1 & H2 & H3).
  - rewrite Hm. now apply limiter_step_bound.
  - unfold limiter_run in *. rewrite H2, H3, <- Hm. auto.
Qed.

(** The window never holds more than [max_requests] timestamps: after
    any calls on a limiter built by the constructor, and, on any
    limiter, right after a call that was allowed. *)
Theorem limiter_window_never_overfull :
  (forall W N ops,
      Z.of_nat (List.length (_requests (limiter_run (init W N) ops)))
        <= Z.max 0 N) /\
  (forall l now,
      fst (is_allowed l now) = true ->
      Z.of_nat (List.length (_requests (snd (is_allowed l now))))
        <= _max_requests l).
Proof.
  split.
  - intros W N ops.
    destruct (limiter_run_bound (init W N) ops) as [H _]; [simpl; lia|exact H].
  - intros l now. unfold is_allowed.
    destruct (Z.leb_spec (_max_requests l) (Z.of_nat (List.length (live l now))));
      simpl; [discriminate|].
    intros _. rewrite length_app. simpl. lia.
Qed.

Lemma limiter_window_never_overfull_witness :
  Z.of_nat (List.length
              (_requests (snd (is_allowed (mkRateLimiter [1%Q; 2%Q] 1000 3) 5%Q))))
    <= 3.
Proof.
  apply (proj2 limiter_window_never_overfull (mkRateLimiter [1%Q; 2%Q] 1000 3) 5%Q).
  reflexivity.
Defined.

(** [get_current_count] only observes: the count it returns decides
    what [is_allowed] answers at the same instant, and calling it
    first changes neither that answer nor the window left behind. *)
Theorem limiter_count_agrees_with_admission l now :
  fst (is_allowed l now)
    = (fst (get_current_count l now) <? _max_requests l) /\
  is_allowed (snd (get_current_count l now)) now = is_allowed l now /\
  get_current_count (snd (get_current_count l now)) now
    = get_current_count l now.
Proof.
  assert (Hlive : live (with_requests l (live l now)) now = live l now).
  { unfold live; simpl. apply filter_idempotent. }
  split; [|split].
  - unfold is_allowed, get_current_count; simpl.
    destruct (Z.leb_spec (_max_requests l) (Z.of_nat (List.length (live l now))));
      destruct (Z.ltb_spec (Z.of_nat (List.length (live l now))) (_max_requests l));
      simpl; try reflexivity; lia.
  - unfold is_allowed, get_current_count; simpl snd. rewrite Hlive. reflexivity.
  - unfold get_current_count; simpl snd. rewrite Hlive. reflexivity.
Qed.

(** The delay announced after a denial is long enough: on a limiter
    built by the constructor with [max_requests >= 1], a caller that
    is denied and comes back after [get_retry_after_seconds] seconds,
    with no call in between, is allowed. *)
Theorem limiter_retry_after_is_sufficient W N ops now :
  1 <= N ->
  let l := limiter_run (init W N) ops in
  fst (is_allowed l now) = false ->
  let denied := snd (is_allowed l now) in
  let retry_after := get_retry_after_seconds denied now in
  fst (is_allowed denied (now + 1000 * inject_Z retry_after)%Q) = true.
Proof.
  intros HN l Hdenied.
  destruct (limiter_run_bound (init W N) ops) as (Hlen & Hw & Hm); [simpl; lia|].
  fold l in Hlen, Hw, Hm. simpl in Hlen, Hw, Hm.
  pose proof (live_length l now) as Hll.
  assert (Hfull : N <= Z.of_nat (List.length (live l now))).
  { unfold is_allowed in Hdenied. rewrite Hm in Hdenied.
    destruct (Z.leb_spec N (Z.of_nat (List.length (live l now))));
      [assumption|discriminate]. }
  assert (Hsnd : snd (is_allowed l now) = with_requests l (live l now)).
  { unfold is_allowed in *.
    destruct (_max_requests l <=? _); [reflexivity|discriminate]. }
  rewrite Hsnd. cbv zeta.
  destruct (live l now) as [|oldest rest] eqn:El; [simpl in Hfull; lia|].
  simpl in Hfull, Hll.
  unfold get_retry_after_seconds, is_allowed, live.
  cbn [_requests _window_ms _max_requests with_requests filter].
  rewrite Hw, Hm.
  set (wait_ms := (inject_Z W - (now - oldest))%Q).
  set (r := Z.max 0 (Qceiling (wait_ms / 1000))).
  assert (Hr : (wait_ms <= 1000 * inject_Z r)%Q).
  { pose proof (Qle_ceiling (wait_ms / 1000)) as Hc.
    assert (Hcr : (inject_Z (Qceiling (wait_ms / 1000)) <= inject_Z r)%Q)
      by (rewrite <- Zle_Qle; unfold r; lia).
    assert (Hq : (wait_ms == 1000 * (wait_ms / 1000))%Q) by (field).
    rewrite Hq at 1. apply Qmult_le_l; lra. }
  assert (Hgone : Qltb (now + 1000 * inject_Z r - oldest) (inject_Z W) = false).
  { apply Qltb_false. unfold wait_ms in Hr. lra. }
  rewrite Hgone.
  pose proof (filter_length_le
                (fun t => Qltb (now + 1000 * inject_Z r - t) (inject_Z W)) rest).
  destruct (Z.leb_spec N
              (Z.of_nat (List.length
                 (filter (fun t => Qltb (now + 1000 * inject_Z r - t) (inject_Z W))
                         rest)))); [lia|reflexivity].
Qed.

Lemma limiter_retry_after_is_sufficient_witness :
  let denied := snd (is_allowed (limiter_run (init 1000 2)
                                   [LIsAllowed 0%Q; LIsAllowed 300%Q]) 400%Q) in
  fst (is_allowed denied
         (400 + 1000 * inject_Z (get_retry_after_seconds denied 400%Q))%Q) = true.
Proof.
  intros denied.
  apply (limiter_retry_after_is_sufficient 1000 2
           [LIsAllowed 0%Q; LIsAllowed 300%Q] 400%Q).
  - lia.
  - reflexivity.
Defined.

(** The operations arrive in the order of the clock, from [t] on. *)
Fixpoint chronological (t : Q) (ops : list LimiterOp) : Prop :=
  match ops with
  | [] => True
  | LIsAllowed now :: rest => (t <= now)%Q /\ chronological now rest
  | LCurrentCount now :: rest => (t <= now)%Q /\ chronological now rest
  | LReset :: rest => chronological t rest
  end.

(** The clock reading of the last operation. *)
Fixpoint last_time (t : Q) (ops : list LimiterOp) : Q :=
  match ops with
  | [] => t
  | LIsAllowed now :: rest => last_time now rest
  | LCurrentCount now :: rest => last_time now rest
  | LReset :: rest => last_time t rest
  end.

(** Every element is at most those after it. *)
Fixpoint nondecreasing (l : list Q) : Prop :=
  match l with
  | [] => True
  | x :: rest => (forall y, In y rest -> (x <= y)%Q) /\ nondecreasing rest
  end.

Lemma nondecreasing_filter f l : nondecreasing l -> nondecreasing (filter f l).
Proof.
  induction l as [|x l IH]; simpl; [auto|].
  intros [Hx Hl]. destruct (f x); simpl; [|auto].
  split; [|auto]. intros y Hy. apply filter_In in Hy. apply Hx, Hy.
Qed.

Lemma nondecreasing_snoc l t :
  nondecreasing l -> (forall x, In x l -> (x <= t)%Q) ->
  nondecreasing (l ++ [t])%list.
Proof.
  induction l as [|x l IH]; simpl; intros Hl Hb.
  - split; [intros y []|exact I].
  - destruct Hl as [Hx Hl]. split.
    + intros y Hy. apply in_app_or in Hy. destruct Hy as [Hy|[<-|[]]]; auto.
    + apply IH; auto.
Qed.

(** Under a clock that does not go back, the window is in order and
    in the past. *)
Lemma limiter_run_chronological l ops t :
  nondecreasing (_requests l) ->
  (forall x, In x (_requests l) -> (x <= t)%Q) ->
  chronological t ops ->
  nondecreasing (_requests (limiter_run l ops)) /\
  (forall x, In x (_requests (limiter_run l ops)) -> (x <= last_time t ops)%Q).
Proof.
  revert l t. induction ops as [|o ops IH]; intros l t Hs Hb Hc; simpl; [auto|].
  destruct o as [now|now|]; simpl in Hc.
  - destruct Hc as [Ht Hc]. apply IH; [| |assumption].
    + simpl. unfold is_allowed. destruct (_max_requests l <=? _); simpl.
      * now apply nondecreasing_filter.
      * apply nondecreasing_snoc; [now apply nondecreasing_filter|].
        intros x Hx. apply filter_In in Hx. destruct Hx as [Hx _].
        specialize (Hb _ Hx). lra.
    + intros x. simpl. unfold is_allowed.
      destruct (_max_requests l <=? _); simpl; intros Hx.
      * apply filter_In in Hx. destruct Hx as [Hx _]. specialize (Hb _ Hx). lra.
      * apply in_app_or in Hx. destruct Hx as [Hx|[<-|[]]]; [|lra].
        apply filter_In in Hx. destruct Hx as [Hx _]. specialize (Hb _ Hx). lra.
  - destruct Hc as [Ht Hc]. apply IH; [| |assumption].
    + simpl. now apply nondecreasing_filter.
    + intros x Hx. simpl in Hx. apply filter_In in Hx. destruct Hx as [Hx _].
      specialize (Hb _ Hx). lra.
  - apply IH; [exact I|intros x []|assumption].
Qed.

(** Under a clock that does not go back, the window of a limiter built
    by the constructor stays in the order of arrival, so its first
    element is the oldest one, and at any later instant
    [get_retry_after_seconds] lies between 0 and ceil(W/1000). *)
Theorem limiter_window_in_arrival_order W N ops t0 now :
  chronological t0 ops -> (last_time t0 ops <= now)%Q ->
  let l := limiter_run (init W N) ops in
  nondecreasing (_requests l) /\
  0 <= get_retry_after_seconds l now <= Z.max 0 (Qceiling (inject_Z W / 1000)).
Proof.
  intros Hc Hnow l.
  destruct (limiter_run_chronological (init W N) ops t0) as [Hs Hb];
    [exact I|intros x []|assumption|].
  fold l in Hs, Hb. split; [assumption|].
  destruct (limiter_run_bound (init W N) ops) as (_ & Hw & _); [simpl; lia|].
  fold l in Hw. simpl in Hw.
  unfold get_retry_after_seconds. rewrite Hw.
  destruct (_requests l) as [|oldest rest] eqn:E; [lia|].
  assert (Hold : (oldest <= now)%Q).
  { specialize (Hb oldest (or_introl eq_refl)). lra. }
  assert (Hle : ((inject_Z W - (now - oldest)) / 1000 <= inject_Z W / 1000)%Q).
  { apply Qle_shift_div_l; [lra|].
    unfold Qdiv. rewrite <- Qmult_assoc.
    setoid_replace (/ 1000 * 1000)%Q with 1%Q by reflexivity. lra. }
  pose proof (Qceiling_resp_le _ _ Hle). lia.
Qed.

Lemma limiter_window_in_arrival_order_witness :
  let l := limiter_run (init 1000 5)
             [LIsAllowed 10%Q; LIsAllowed 20%Q; LCurrentCount 30%Q] in
  nondecreasing (_requests l) /\
  0 <= get_retry_after_seconds l 40%Q <= Z.max 0 (Qceiling (inject_Z 1000 / 1000)).
Proof.
  intros l.
  apply (limiter_window_in_arrival_order 1000 5
           [LIsAllowed 10%Q; LIsAllowed 20%Q; LCurrentCount 30%Q] 0%Q 40%Q).
  - simpl. repeat split; vm_compute; discriminate.
  - vm_compute. discriminate.
Defined.
End LimiterRuns.

(** ** The rate limiter: the window property under an advancing clock *)

Section LimiterWindowClaim.
Import RateLimiter.

(** The limiter built by [RateLimiter(W, N)] after calls of
    [is_allowed] at the clock readings [ts], in this order. *)
Definition after_calls (W N : Z) (ts : list Q) : RateLimiter :=
  limiter_run (init W N) (map LIsAllowed ts).

Lemma filter_all {A} (f : A -> bool) (l : list A) :
  (forall x, In x l -> f x = true) -> filter f l = l.
Proof.
  induction l as [|x l IH]; simpl; intros H; [reflexivity|].
  rewrite (H x) by now left. f_equal. apply IH. intros y Hy. apply H. now right.
Qed.

Lemma after_calls_snoc W N ts t :
  after_calls W N (ts ++ [t])%list = snd (is_allowed (after_calls W N ts) t).
Proof.
  unfold after_calls, limiter_run. rewrite map_app, fold_left_app. reflexivity.
Qed.

(** Calls that all fall less than [W] before a reading [t'], and not
    after it, are all recorded, up to [N] of them. *)
Lemma after_calls_within W N ts t' :
  (forall t, In t ts -> (t <= t')%Q /\ (t' - t < inject_Z W)%Q) ->
  (List.length ts <= Z.to_nat N)%nat ->
  after_calls W N ts = mkRateLimiter ts W N.
Proof.
  induction ts as [|x ts IH] using rev_ind; intros Hin Hlen; [reflexivity|].
  rewrite length_app in Hlen. simpl in Hlen.
  rewrite after_calls_snoc, IH;
    [|intros t Ht; apply Hin, in_or_app; now left|lia].
  destruct (Hin x) as [Hx _]; [apply in_or_app; right; now left|].
  unfold is_allowed, live. cbn [_requests _window_ms _max_requests].
  rewrite filter_all.
  - destruct (Z.leb_spec N (Z.of_nat (List.length ts))); [lia|reflexivity].
  - intros t Ht. apply Qltb_true.
    destruct (Hin t) as [_ Hw]; [apply in_or_app; now left|]. lra.
Qed.

Lemma firstn_In {A} (k : nat) (l : list A) (x : A) : In x (firstn k l) -> In x l.
Proof.
  revert l. induction k as [|k IH]; intros [|a l]; simpl; try tauto.
  intros [H|H]; auto.
Qed.

(** The admission part of the limiter property for
    [RateLimiter(window_ms = W, max_requests = N)], from an empty
    window.  The [N + 1] calls are taken first at one clock reading,
    then at any readings [ts] followed by [t'] that lie less than [W]
    before [t'] and not after it. *)
Definition limiter_admission (W N : Z) : Prop :=
  let l0 := init W N in
  (forall now k, (k < Z.to_nat N)%nat ->
                 fst (is_allowed (calls k l0 now) now) = true) /\
  (forall now,
      let lN := calls (Z.to_nat N) l0 now in
      is_allowed lN now = (false, lN) /\
      forall later, (now + inject_Z W <= later)%Q ->
                    fst (is_allowed lN later) = true) /\
  (forall ts t',
      List.length ts = Z.to_nat N ->
      (forall t, In t ts -> (t <= t')%Q /\ (t' - t < inject_Z W)%Q) ->
      (forall k t, nth_error ts k = Some t ->
                   fst (is_allowed (after_calls W N (firstn k ts)) t) = true) /\
      is_allowed (after_calls W N ts) t' = (false, after_calls W N ts) /\
      forall later,
        (t' + inject_Z W <= later)%Q ->
        fst (is_allowed (snd (is_allowed (after_calls W N ts) t')) later) = true).

(** The delay read on the limiter [d] at the reading [r] lies in
    (0, ceil(W/1000)]. *)
Definition retry_in_range (W : Z) (d : RateLimiter) (r : Q) : Prop :=
  0 < get_retry_after_seconds d r <= Qceiling (inject_Z W / 1000).

(** C2, as stated: admission as above; after any calls on a limiter
    built by the constructor, the delay read when a call has just
    been denied is in range; the delay is 0 on an empty window. *)
Definition limiter_claim (W N : Z) : Prop :=
  limiter_admission W N /\
  (forall ops now,
      fst (is_allowed (limiter_run (init W N) ops) now) = false ->
      retry_in_range W (snd (is_allowed (limiter_run (init W N) ops) now)) now) /\
  (forall l now, _requests l = [] -> get_retry_after_seconds l now = 0).

(** The same for calls that arrive in the order of the clock, with the
    delay read at the denial and at any later reading at which a call
    would still be denied. *)
Definition limiter_property (W N : Z) : Prop :=
  limiter_admission W N /\
  (forall ops t0 now,
      chronological t0 ops -> (last_time t0 ops <= now)%Q ->
      fst (is_allowed (limiter_run (init W N) ops) now) = false ->
      let denied := snd (is_allowed (limiter_run (init W N) ops) now) in
      retry_in_range W denied now /\
      forall r,
        (now <= r)%Q -> fst (is_allowed denied r) = false ->
        retry_in_range W denied r) /\
  (forall l now, _requests l = [] -> get_retry_after_seconds l now = 0).

(** C2, as stated, fails in three ways.  With [max_requests = 0] the
    very first call is denied on an empty window and
    [get_retry_after_seconds] is then 0, outside (0, ceil(W/1000)].
    With [window_ms = 0] every timestamp is purged at once, so the
    call after [N] calls at the same clock reading is allowed.  With
    a clock that steps back ([time.time()] is the wall clock) a call
    recorded at 2000 ms makes a call at 0 ms wait 3 s, for a window
    of 1 s. *)
Lemma limiter_claim_fails :
  ~ limiter_claim 1000 0 /\ ~ limiter_claim 0 1 /\ ~ limiter_claim 1000 1.
Proof.
  split; [|split].
  - intros (_ & Hretry & _).
    destruct (Hretry [] 0%Q) as [Hlt _].
    + reflexivity.
    + vm_compute in Hlt. discriminate.
  - intros ((_ & Hdeny & _) & _).
    destruct (Hdeny 0%Q) as [Hd _]. vm_compute in Hd. discriminate.
  - intros (_ & Hretry & _).
    destruct (Hretry [LIsAllowed 2000%Q] 0%Q) as [_ Hle].
    + reflexivity.
    + vm_compute in Hle. apply Hle. reflexivity.
Qed.

(** What a denial on a limiter built by the constructor means, at a
    reading [r] not before the timestamps of the window: the oldest
    timestamp is still in the window. *)
Lemma retry_after_while_denied W N (d : RateLimiter) r :
  1 <= N ->
  _window_ms d = W -> _max_requests d = N ->
  Z.of_nat (List.length (_requests d)) <= N ->
  (forall x, In x (_requests d) -> (x <= r)%Q) ->
  fst (is_allowed d r) = false ->
  0 < get_retry_after_seconds d r <= Qceiling (inject_Z W / 1000).
Proof.
  intros HN Hw Hm Hlen Hpast Hdenied.
  unfold is_allowed, live in Hdenied. rewrite Hm, Hw in Hdenied.
  unfold get_retry_after_seconds. rewrite Hw.
  destruct (_requests d) as [|oldest rest]; simpl in Hlen.
  - simpl in Hdenied. destruct (Z.leb_spec N 0); [lia|discriminate].
  - assert (Hlive : (r - oldest < inject_Z W)%Q).
    { cbn [filter] in Hdenied.
      destruct (Qltb (r - oldest) (inject_Z W)) eqn:E; [now apply Qltb_true|].
      pose proof (filter_length_le
                    (fun t => Qltb (r - t) (inject_Z W)) rest) as Hf.
      destruct (Z.leb_spec N
                  (Z.of_nat (List.length
                     (filter (fun t => Qltb (r - t) (inject_Z W)) rest))));
        [lia|discriminate]. }
    assert (Hold : (oldest <= r)%Q) by (apply Hpast; now left).
    set (wait_ms := (inject_Z W - (r - oldest))%Q).
    assert (H0 : (0 < wait_ms / 1000)%Q).
    { unfold wait_ms. apply Qlt_shift_div_l; lra. }
    assert (H1 : (wait_ms / 1000 <= inject_Z W / 1000)%Q).
    { unfold wait_ms. apply Qle_shift_div_l; [lra|].
      unfold Qdiv. rewrite <- Qmult_assoc.
      setoid_replace (/ 1000 * 1000)%Q with 1%Q by reflexivity. lra. }
    pose proof (Qle_ceiling (wait_ms / 1000)) as Hc.
    assert (Hpos : 0 < Qceiling (wait_ms / 1000)).
    { rewrite Zlt_Qlt. change (inject_Z 0) with 0%Q. lra. }
    pose proof (Qceiling_resp_le _ _ H1). lia.
Qed.

(** C2 (amended): for [max_requests = N >= 1] and [window_ms = W >= 1],
    from an empty window: [N] calls of [is_allowed] return true and
    the next call returns false and leaves the window as it was, when
    all are made at one clock reading and also when they are made at
    advancing readings that lie less than [W] before the last one; a
    call at least [W] ms after the denied one returns true; under a
    clock that does not step back, [get_retry_after_seconds] lies in
    (0, ceil(W/1000)] when read at the denial and at any later
    instant at which a call would still be denied; it is 0 when no
    request is recorded. *)
Theorem limiter_window_behaviour W N :
  1 <= W -> 1 <= N -> limiter_property W N.
Proof.
  intros HW HN. unfold limiter_property, limiter_admission, retry_in_range.
  cbv zeta. pose proof (inject_Z_pos W HW) as HWq.
  split; [split; [|split]|split].
  - intros now k Hk. rewrite calls_immediate by (assumption || lia).
    unfold is_allowed. rewrite live_immediate by assumption.
    rewrite repeat_length. simpl _max_requests.
    destruct (Z.leb_spec N (Z.of_nat k)); [lia|reflexivity].
  - intros now. rewrite calls_immediate by (assumption || lia).
    split.
    + unfold is_allowed. rewrite live_immediate by assumption.
      rewrite repeat_length. simpl _max_requests.
      destruct (Z.leb_spec N (Z.of_nat (Z.to_nat N))); [reflexivity|lia].
    + intros later Hlater. unfold is_allowed.
      assert (Hl : live (mkRateLimiter (repeat now (Z.to_nat N)) W N) later = []).
      { unfold live; simpl. apply filter_none. intros x Hx.
        apply repeat_spec in Hx. subst x. apply Qltb_false. lra. }
      rewrite Hl. simpl _max_requests. simpl List.length.
      destruct (Z.leb_spec N (Z.of_nat 0)); [lia|reflexivity].
  - intros ts t' Hlen Hin.
    assert (Hdeny : is_allowed (mkRateLimiter ts W N) t'
                    = (false, mkRateLimiter ts W N)).
    { unfold is_allowed, live. cbn [_requests _window_ms _max_requests].
      rewrite filter_all
        by (intros t Ht; apply Qltb_true; now destruct (Hin t Ht)).
      destruct (Z.leb_spec N (Z.of_nat (List.length ts))); [reflexivity|lia]. }
    split; [|split].
    + intros k t Hk.
      assert (Hkl : (k < List.length ts)%nat)
        by (apply nth_error_Some; congruence).
      destruct (Hin t (nth_error_In _ _ Hk)) as [Ht _].
      rewrite (after_calls_within W N (firstn k ts) t').
      * unfold is_allowed, live. cbn [_requests _window_ms _max_requests].
        rewrite filter_all.
        -- rewrite length_firstn.
           destruct (Z.leb_spec N (Z.of_nat (Nat.min k (List.length ts))));
             [lia|reflexivity].
        -- intros x Hx. apply firstn_In in Hx. apply Qltb_true.
           destruct (Hin x Hx). lra.
      * intros x Hx. apply Hin. eapply firstn_In; eauto.
      * rewrite length_firstn. lia.
    + rewrite (after_calls_within W N ts t') by (assumption || lia).
      exact Hdeny.
    + intros later Hlater.
      rewrite (after_calls_within W N ts t') by (assumption || lia).
      rewrite Hdeny. simpl snd.
      unfold is_allowed, live. cbn [_requests _window_ms _max_requests].
      rewrite filter_none.
      * simpl List.length. destruct (Z.leb_spec N (Z.of_nat 0)); [lia|reflexivity].
      * intros x Hx. apply Qltb_false. destruct (Hin x Hx). lra.
  - intros ops t0 now Hchron Hlast Hdenied.
    set (l := limiter_run (init W N) ops) in *.
    destruct (limiter_run_bound (init W N) ops) as (Hlen & Hw & Hm); [simpl; lia|].
    fold l in Hlen, Hw, Hm. simpl in Hlen, Hw, Hm.
    destruct (limiter_run_chronological (init W N) ops t0) as [_ Hb];
      [exact I|intros x []|assumption|]. fold l in Hb.
    assert (Hsnd : snd (is_allowed l now) = with_requests l (live l now)).
    { unfold is_allowed in *.
      destruct (_max_requests l <=? _); [reflexivity|discriminate]. }
    rewrite Hsnd.
    assert (Hdlen : Z.of_nat (List.length (_requests (with_requests l (live l now))))
                    <= N).
    { simpl. pose proof (live_length l now). lia. }
    assert (Hdpast : forall r, (now <= r)%Q ->
              forall x, In x (_requests (with_requests l (live l now))) ->
                        (x <= r)%Q).
    { intros r Hr x Hx. simpl in Hx. unfold live in Hx.
      apply filter_In in Hx. destruct Hx as [Hx _].
      specialize (Hb _ Hx). lra. }
    assert (Hagain : fst (is_allowed (with_requests l (live l now)) now) = false).
    { unfold is_allowed in *.
      assert (Hl2 : live (with_requests l (live l now)) now = live l now)
        by (unfold live; simpl; apply filter_idempotent).
      rewrite Hl2. simpl _max_requests.
      destruct (_max_requests l <=? _); [reflexivity|discriminate]. }
    split.
    + apply (retry_after_while_denied W N); auto.
      apply Hdpast. lra.
    + intros r Hr Hstill. apply (retry_after_while_denied W N); auto.
  - intros l now Hempty. unfold get_retry_after_seconds. now rewrite Hempty.
Qed.

Lemma limiter_window_behaviour_witness :
  1 <= 1000 /\ 1 <= 5 /\ limiter_property 1000 5.
Proof.
  split; [lia|]. split; [lia|]. apply limiter_window_behaviour; lia.
Defined.

(** The run of the repository's test: two calls 10 ms apart are
    allowed, a third 20 ms later is denied, and a call 60 ms after
    that is allowed again, for a window of 50 ms. *)
Lemma limiter_advancing_clock_run :
  fst (is_allowed (after_calls 50 2 []) 0%Q) = true /\
  fst (is_allowed (after_calls 50 2 [0%Q]) 10%Q) = true /\
  fst (is_allowed (after_calls 50 2 [0%Q; 10%Q]) 30%Q) = false /\
  fst (is_allowed (snd (is_allowed (after_calls 50 2 [0%Q; 10%Q]) 30%Q)) 90%Q)
    = true.
Proof. repeat split. Qed.
End LimiterWindowClaim.

(** ** Metrics: counters, per-model counts, range of the average *)

Section MetricsCounters.
Import Metrics.

Definition model_count (cs : list Call) (model : string) : Z :=
  Z.of_nat (List.length (filter (fun c => String.eqb (c_model c) model) cs)).

Definition error_total (cs : list Call) : Z :=
  Z.of_nat (List.length (filter c_error cs)).

Lemma run_counts (cs : list Call) :
  _error_count (run init cs) = error_total cs /\
  forall model,
    dict_lookup (_requests_by_model (run init cs)) model
    = if model_count cs model =? 0 then None else Some (model_count cs model).
Proof.
  induction cs as [|c cs IH] using rev_ind; [split; [reflexivity|intros; reflexivity]|].
  destruct IH as [He Hm]. rewrite run_snoc. unfold record, record_request; simpl.
  split.
  - rewrite He. unfold error_total. rewrite filter_app, length_app. simpl.
    destruct (c_error c); simpl; lia.
  - intros model. unfold model_count in *.
    rewrite filter_app, length_app. simpl filter.
    destruct (String.eqb (c_model c) model) eqn:E.
    + apply String.eqb_eq in E. subst model. rewrite dict_lookup_store_eq.
      rewrite Hm. simpl List.length.
      destruct (Z.eqb_spec (Z.of_nat (List.length
                  (filter (fun c0 => String.eqb (c_model c0) (c_model c)) cs))) 0)
        as [H0|H0];
        destruct (Z.eqb_spec
                    (Z.of_nat (List.length
                       (filter (fun c0 => String.eqb (c_model c0) (c_model c)) cs)
                     + 1)) 0); try lia; f_equal; lia.
    + apply String.eqb_neq in E. rewrite dict_lookup_store_ne by assumption.
      rewrite Hm. simpl List.length. now rewrite Nat.add_0_r.
Qed.

(** After any calls of [record_request], the snapshot maps each model
    to the number of calls made with it (models never seen are absent)
    and [errorCount] is the number of calls flagged as errors. *)
Theorem metrics_counts_by_model (cs : list Call) (model : string) :
  let snap := get_metrics (run init cs) in
  dict_lookup (requestsByModel snap) model
    = (if model_count cs model =? 0 then None else Some (model_count cs model)) /\
  errorCount snap = error_total cs.
Proof.
  destruct (run_counts cs) as [He Hm]. split; [apply Hm|exact He].
Qed.

Lemma py_round_nonneg (x : Q) : (0 <= x)%Q -> 0 <= py_round x.
Proof.
  intros Hx. pose proof (py_round_nearest x) as [Hlo _].
  assert (H : (inject_Z (-1) < inject_Z (py_round x))%Q).
  { change (inject_Z (-1)) with (-1)%Q. lra. }
  rewrite <- Zlt_Qlt in H. lia.
Qed.

Lemma py_round_le_int (x : Q) (z : Z) : (x <= inject_Z z)%Q -> py_round x <= z.
Proof.
  intros Hx. pose proof (py_round_nearest x) as [_ Hhi].
  assert (H : (inject_Z (py_round x) < inject_Z (z + 1))%Q).
  { rewrite inject_Z_plus. change (inject_Z 1) with 1%Q. lra. }
  rewrite <- Zlt_Qlt in H. lia.
Qed.

Lemma py_round_ge_int (x : Q) (z : Z) : (inject_Z z <= x)%Q -> z <= py_round x.
Proof.
  intros Hx. pose proof (py_round_nearest x) as [Hlo _].
  assert (H : (inject_Z (z - 1) < inject_Z (py_round x))%Q).
  { replace (z - 1) with (z + (-1)) by lia.
    rewrite inject_Z_plus. change (inject_Z (-1)) with (-1)%Q. lra. }
  rewrite <- Zlt_Qlt in H. lia.
Qed.


Lemma In_skipn_incl {A} (x : A) (n : nat) (l : list A) :
  In x (skipn n l) -> In x l.
Proof.
  revert l. induction n as [|n IH]; intros [|a l]; simpl; auto.
Qed.



End MetricsCounters.

(** ** Rounding to binary64 *)

Section BinaryFloats.

Lemma pow2_Qpower (e : Z) : (pow2 e == 2 ^ e)%Q.
Proof.
  unfold pow2. destruct (Z.leb_spec 0 e) as [He|He].
  - rewrite Zpower_Qpower by assumption. reflexivity.
  - destruct e as [|p|p]; try lia.
    change (- Z.neg p) with (Z.pos p).
    change ((2:Q) ^ Z.neg p)%Q with (/ ((2:Q) ^ Z.pos p))%Q.
    rewrite <- (Zpower_Qpower 2 (Z.pos p)) by lia.
    assert (Hp : 0 < 2 ^ Z.pos p) by (apply Z.pow_pos_nonneg; lia).
    destruct (2 ^ Z.pos p) as [|n|n]; try lia. reflexivity.
Qed.

Lemma pow2_pos (e : Z) : (0 < pow2 e)%Q.
Proof. rewrite pow2_Qpower. apply Qpower_0_lt. reflexivity. Qed.

Lemma Qpower2_succ (e : Z) : ((2:Q) ^ (e + 1) == 2 * 2 ^ e)%Q.
Proof.
  rewrite Qpower_plus by discriminate. change ((2:Q) ^ 1)%Q with (2:Q).
  apply Qmult_comm.
Qed.

Lemma Qpower2_split (a b : Z) : ((2:Q) ^ (a - b) * 2 ^ b == 2 ^ a)%Q.
Proof.
  rewrite <- Qpower_plus by discriminate. replace (a - b + b) with a by lia.
  reflexivity.
Qed.

Lemma Qpower2_le (a b : Z) : a <= b -> ((2:Q) ^ a <= 2 ^ b)%Q.
Proof. intros H. apply Qpower_le_compat_l; [assumption|discriminate]. Qed.

Lemma Qpower2_pos (e : Z) : (0 < (2:Q) ^ e)%Q.
Proof. apply Qpower_0_lt. reflexivity. Qed.

Lemma floor_log2_spec (x : Q) :
  (0 < x)%Q -> (2 ^ floor_log2 x <= x < 2 ^ (floor_log2 x + 1))%Q.
Proof.
  intros Hx. unfold floor_log2.
  destruct x as [n d]. cbn [Qnum Qden].
  assert (Hn : 0 < n) by (unfold Qlt in Hx; simpl in Hx; lia).
  set (a := Z.log2 n). set (b := Z.log2 (Z.pos d)).
  destruct (Z.log2_spec n Hn) as [Ha1 Ha2]. fold a in Ha1, Ha2.
  destruct (Z.log2_spec (Z.pos d) ltac:(lia)) as [Hb1 Hb2]. fold b in Hb1, Hb2.
  assert (Ha0 : 0 <= a) by apply Z.log2_nonneg.
  assert (Hb0 : 0 <= b) by apply Z.log2_nonneg.
  assert (Hup : (n # d < 2 ^ (a - b + 1))%Q).
  { apply Qlt_le_trans with (y := (inject_Z (2 ^ (a + 1)) / inject_Z (Z.pos d))%Q).
    - rewrite (Qmake_Qdiv n d). apply Qmult_lt_compat_r.
      + apply Qinv_lt_0_compat. reflexivity.
      + rewrite <- Zlt_Qlt. replace (a + 1) with (Z.succ a) by lia. exact Ha2.
    - apply Qle_shift_div_r; [reflexivity|].
      rewrite Zpower_Qpower by lia.
      rewrite <- (Qpower2_split (a + 1) b).
      replace (a + 1 - b) with (a - b + 1) by lia.
      apply Qmult_le_l; [apply Qpower2_pos|].
      rewrite <- (Zpower_Qpower 2 b) by lia. rewrite <- Zle_Qle. exact Hb1. }
  assert (Hlo : (2 ^ (a - b - 1) < n # d)%Q).
  { apply Qle_lt_trans with (y := (inject_Z (2 ^ a) / inject_Z (2 ^ (b + 1)))%Q).
    - assert (Hp : (0 < inject_Z (2 ^ (b + 1)))%Q).
      { rewrite Zpower_Qpower by lia. apply Qpower2_pos. }
      apply Qle_shift_div_l; [exact Hp|].
      rewrite !Zpower_Qpower by lia.
      replace (a - b - 1) with (a - (b + 1)) by lia.
      rewrite Qpower2_split. apply Qle_refl.
    - rewrite (Qmake_Qdiv n d).
      apply Qle_lt_trans with (y := (inject_Z n / inject_Z (2 ^ (b + 1)))%Q).
      + apply Qmult_le_compat_r.
        * rewrite <- Zle_Qle. exact Ha1.
        * apply Qinv_le_0_compat. rewrite Zpower_Qpower by lia.
          apply Qlt_le_weak, Qpower2_pos.
      + unfold Qdiv. apply Qmult_lt_l.
        * change 0%Q with (inject_Z 0). rewrite <- Zlt_Qlt. exact Hn.
        * assert (H1 : (0 < inject_Z (Z.pos d))%Q) by reflexivity.
          assert (H2 : (0 < inject_Z (2 ^ (b + 1)))%Q).
          { rewrite Zpower_Qpower by lia. apply Qpower2_pos. }
          apply (proj1 (Qinv_lt_contravar _ _ H1 H2)).
          rewrite <- Zlt_Qlt. replace (b + 1) with (Z.succ b) by lia. exact Hb2. }
  destruct (Qle_bool (pow2 (a - b)) (n # d)) eqn:E.
  - apply Qle_bool_iff in E. rewrite pow2_Qpower in E. split; assumption.
  - assert (E' : ~ (pow2 (a - b) <= n # d)%Q).
    { intros H. apply Qle_bool_iff in H. congruence. }
    rewrite pow2_Qpower in E'. apply Qnot_le_lt in E'.
    replace (a - b - 1 + 1) with (a - b) by lia.
    split; [apply Qlt_le_weak|]; assumption.
Qed.

Lemma floor_log2_le (x y : Q) :
  (0 < x)%Q -> (x <= y)%Q -> floor_log2 x <= floor_log2 y.
Proof.
  intros Hx Hxy.
  destruct (floor_log2_spec x Hx) as [Hx1 _].
  destruct (floor_log2_spec y ltac:(lra)) as [_ Hy2].
  destruct (Z_le_gt_dec (floor_log2 x) (floor_log2 y)) as [|Hgt]; [assumption|].
  exfalso.
  pose proof (Qpower2_le (floor_log2 y + 1) (floor_log2 x) ltac:(lia)). lra.
Qed.

Lemma py_round_le (x y : Q) : (x <= y)%Q -> py_round x <= py_round y.
Proof.
  intros Hxy. unfold py_round.
  pose proof (Qfloor_le x) as Hx1. pose proof (Qlt_floor x) as Hx2.
  pose proof (Qfloor_le y) as Hy1. pose proof (Qlt_floor y) as Hy2.
  pose proof (Qfloor_resp_le x y Hxy) as Hf.
  rewrite inject_Z_plus in Hx2, Hy2. change (inject_Z 1) with 1%Q in Hx2, Hy2.
  destruct (Z.eq_dec (Qfloor x) (Qfloor y)) as [Heq|Hne].
  - rewrite <- Heq in *.
    destruct (Qltb (x - inject_Z (Qfloor x)) (1 # 2)) eqn:E1;
      destruct (Qltb (y - inject_Z (Qfloor x)) (1 # 2)) eqn:E2;
      destruct (Qltb (1 # 2) (x - inject_Z (Qfloor x))) eqn:E3;
      destruct (Qltb (1 # 2) (y - inject_Z (Qfloor x))) eqn:E4;
      destruct (Z.even (Qfloor x));
      try lia;
      repeat match goal with
             | H : Qltb _ _ = true |- _ => apply Qltb_true in H
             | H : Qltb _ _ = false |- _ => apply Qltb_false in H
             end; exfalso; lra.
  - assert (Hlt : Qfloor x + 1 <= Qfloor y) by lia.
    destruct (Qltb (x - inject_Z (Qfloor x)) (1 # 2));
      destruct (Qltb (y - inject_Z (Qfloor y)) (1 # 2));
      destruct (Qltb (1 # 2) (x - inject_Z (Qfloor x)));
      destruct (Qltb (1 # 2) (y - inject_Z (Qfloor y)));
      destruct (Z.even (Qfloor x)); destruct (Z.even (Qfloor y)); lia.
Qed.

Lemma py_round_int (z : Z) (x : Q) : (x == inject_Z z)%Q -> py_round x = z.
Proof.
  intros Hx.
  assert (H1 : py_round x <= z) by (apply py_round_le_int; lra).
  assert (H2 : z <= py_round x) by (apply py_round_ge_int; lra).
  lia.
Qed.

Lemma py_round_comp (x y : Q) : (x == y)%Q -> py_round x = py_round y.
Proof.
  intros H.
  assert (H1 : (x <= y)%Q) by (rewrite H; apply Qle_refl).
  assert (H2 : (y <= x)%Q) by (rewrite H; apply Qle_refl).
  pose proof (py_round_le x y H1). pose proof (py_round_le y x H2). lia.
Qed.

(** The exponent and the spacing of the floats around [x]. *)
Definition exponent (x : Q) : Z := Z.max (floor_log2 x) (-1022).

Lemma binary64_pos_eq (x : Q) :
  (binary64_pos x
   == inject_Z (py_round (x / 2 ^ (exponent x - 52))) * 2 ^ (exponent x - 52))%Q.
Proof.
  unfold binary64_pos. cbv zeta. rewrite Qred_correct. fold (exponent x).
  pose proof (pow2_Qpower (exponent x - 52)) as Hq.
  rewrite (py_round_comp (x / pow2 (exponent x - 52)) (x / 2 ^ (exponent x - 52)))
    by now rewrite Hq.
  now rewrite Hq.
Qed.

Lemma exponent_le (x y : Q) : (0 < x)%Q -> (x <= y)%Q -> exponent x <= exponent y.
Proof.
  intros Hx Hxy. unfold exponent. pose proof (floor_log2_le x y Hx Hxy). lia.
Qed.

Lemma Qdiv_pow_le (x y : Q) (e : Z) : (x <= y)%Q -> (x / 2 ^ e <= y / 2 ^ e)%Q.
Proof.
  intros H. apply Qmult_le_compat_r; [assumption|].
  apply Qinv_le_0_compat, Qlt_le_weak, Qpower2_pos.
Qed.

Lemma Qpower2_quot (a b : Z) : ((2:Q) ^ a / 2 ^ b == 2 ^ (a - b))%Q.
Proof.
  rewrite <- (Qpower2_split a b). apply Qdiv_mult_l.
  pose proof (Qpower2_pos b) as H. intros E. rewrite E in H. discriminate.
Qed.

(** In its binade, [x > 0] is rounded to a float of the binade or to
    the power of two that ends it. *)
Lemma binary64_pos_le_top (x : Q) :
  (0 < x)%Q -> (binary64_pos x <= 2 ^ (exponent x + 1))%Q.
Proof.
  intros Hx. rewrite binary64_pos_eq.
  set (e := exponent x).
  destruct (floor_log2_spec x Hx) as [_ Hup].
  assert (He : (x < 2 ^ (e + 1))%Q).
  { pose proof (Qpower2_le (floor_log2 x + 1) (e + 1)
                  ltac:(unfold e, exponent; lia)). lra. }
  assert (Hm : py_round (x / 2 ^ (e - 52)) <= 2 ^ 53).
  { apply py_round_le_int. rewrite Zpower_Qpower by lia.
    change (inject_Z 2) with (2:Q).
    replace 53 with (e + 1 - (e - 52)) by lia.
    rewrite <- (Qpower2_quot (e + 1) (e - 52)).
    apply Qdiv_pow_le. lra. }
  apply Qle_trans with (y := (inject_Z (2 ^ 53) * 2 ^ (e - 52))%Q).
  - apply Qmult_le_compat_r; [now rewrite <- Zle_Qle|].
    apply Qlt_le_weak, Qpower2_pos.
  - rewrite Zpower_Qpower by lia. change (inject_Z 2) with (2:Q).
    rewrite <- Qpower_plus by discriminate.
    replace (53 + (e - 52)) with (e + 1) by lia. apply Qle_refl.
Qed.

Lemma binary64_pos_ge_bottom (x : Q) :
  (0 < x)%Q -> -1022 <= floor_log2 x -> (2 ^ exponent x <= binary64_pos x)%Q.
Proof.
  intros Hx Hn. rewrite binary64_pos_eq.
  assert (He : exponent x = floor_log2 x) by (unfold exponent; lia).
  set (e := exponent x) in *.
  destruct (floor_log2_spec x Hx) as [Hlo _]. rewrite <- He in Hlo.
  assert (Hm : 2 ^ 52 <= py_round (x / 2 ^ (e - 52))).
  { apply py_round_ge_int. rewrite Zpower_Qpower by lia.
    change (inject_Z 2) with (2:Q).
    replace 52 with (e - (e - 52)) at 1 by lia.
    rewrite <- (Qpower2_quot e (e - 52)).
    apply Qdiv_pow_le. lra. }
  apply Qle_trans with (y := (inject_Z (2 ^ 52) * 2 ^ (e - 52))%Q).
  - rewrite Zpower_Qpower by lia. change (inject_Z 2) with (2:Q).
    rewrite <- Qpower_plus by discriminate.
    replace (52 + (e - 52)) with e by lia. apply Qle_refl.
  - apply Qmult_le_compat_r; [now rewrite <- Zle_Qle|].
    apply Qlt_le_weak, Qpower2_pos.
Qed.

Lemma binary64_pos_nonneg (x : Q) : (0 < x)%Q -> (0 <= binary64_pos x)%Q.
Proof.
  intros Hx. rewrite binary64_pos_eq.
  apply Qmult_le_0_compat.
  - change 0%Q with (inject_Z 0). rewrite <- Zle_Qle. apply py_round_nonneg.
    apply Qle_shift_div_l; [apply Qpower2_pos|]. lra.
  - apply Qlt_le_weak, Qpower2_pos.
Qed.

(** Rounding keeps the order, on the positive numbers. *)
Lemma binary64_pos_le (x y : Q) :
  (0 < x)%Q -> (x <= y)%Q -> (binary64_pos x <= binary64_pos y)%Q.
Proof.
  intros Hx Hxy. assert (Hy : (0 < y)%Q) by lra.
  pose proof (exponent_le x y Hx Hxy) as He.
  destruct (Z.eq_dec (exponent x) (exponent y)) as [Heq|Hne].
  - rewrite !binary64_pos_eq, Heq.
    apply Qmult_le_compat_r; [|apply Qlt_le_weak, Qpower2_pos].
    rewrite <- Zle_Qle. apply py_round_le. now apply Qdiv_pow_le.
  - assert (Hn : -1022 <= floor_log2 y) by (unfold exponent in *; lia).
    pose proof (binary64_pos_le_top x Hx).
    pose proof (binary64_pos_ge_bottom y Hy Hn).
    pose proof (Qpower2_le (exponent x + 1) (exponent y) ltac:(lia)). lra.
Qed.

Lemma binary64_cases (x : Q) :
  (x == 0 /\ binary64 x = 0)%Q \/
  (0 < x /\ binary64 x = binary64_pos x)%Q \/
  (x < 0 /\ binary64 x = - binary64_pos (- x))%Q.
Proof.
  destruct x as [[|p|p] d]; unfold binary64; cbn [Qnum];
    [left|right; left|right; right]; split; reflexivity.
Qed.

(** Rounding to binary64 keeps the order. *)
Lemma binary64_le (x y : Q) : (x <= y)%Q -> (binary64 x <= binary64 y)%Q.
Proof.
  intros Hxy.
  destruct (binary64_cases x) as [[Hx ->]|[[Hx ->]|[Hx ->]]];
    destruct (binary64_cases y) as [[Hy ->]|[[Hy ->]|[Hy ->]]];
    try (exfalso; lra).
  - apply Qle_refl.
  - now apply binary64_pos_nonneg.
  - now apply binary64_pos_le.
  - pose proof (binary64_pos_nonneg (- x) ltac:(lra)). lra.
  - pose proof (binary64_pos_nonneg (- x) ltac:(lra)).
    pose proof (binary64_pos_nonneg y Hy). lra.
  - pose proof (binary64_pos_le (- y) (- x) ltac:(lra) ltac:(lra)). lra.
Qed.

(** A number on the grid of its binade is a float. *)
Lemma binary64_pos_exact (x : Q) (m : Z) :
  (x / 2 ^ (exponent x - 52) == inject_Z m)%Q -> (binary64_pos x == x)%Q.
Proof.
  intros Hm. rewrite binary64_pos_eq, (py_round_int m _ Hm), <- Hm.
  rewrite Qmult_comm. apply Qmult_div_r.
  pose proof (Qpower2_pos (exponent x - 52)) as H. intros E. rewrite E in H.
  discriminate.
Qed.

Lemma floor_log2_unique (x : Q) (k : Z) :
  (2 ^ k <= x < 2 ^ (k + 1))%Q -> floor_log2 x = k.
Proof.
  intros [H1 H2]. assert (Hx : (0 < x)%Q) by (pose proof (Qpower2_pos k); lra).
  destruct (floor_log2_spec x Hx) as [H3 H4].
  destruct (Z_lt_le_dec (floor_log2 x) k) as [Hlt|Hge].
  - pose proof (Qpower2_le (floor_log2 x + 1) k ltac:(lia)). lra.
  - destruct (Z_lt_le_dec k (floor_log2 x)) as [Hlt|Hle]; [|lia].
    pose proof (Qpower2_le (k + 1) (floor_log2 x) ltac:(lia)). lra.
Qed.

(** The integers up to [2^53] are floats. *)
Lemma binary64_pos_int (z : Z) :
  0 < z <= 2 ^ 53 -> (binary64_pos (inject_Z z) == inject_Z z)%Q.
Proof.
  intros [Hz Hz53].
  destruct (Z.eq_dec z (2 ^ 53)) as [->|Hne]; [vm_compute; reflexivity|].
  assert (Hx : (0 < inject_Z z)%Q)
    by (change 0%Q with (inject_Z 0); rewrite <- Zlt_Qlt; lia).
  set (k := Z.log2 z).
  destruct (Z.log2_spec z Hz) as [Hk1 Hk2]. fold k in Hk1, Hk2.
  assert (Hk0 : 0 <= k) by apply Z.log2_nonneg.
  assert (Hk52 : k <= 52).
  { destruct (Z_le_gt_dec k 52); [assumption|exfalso].
    pose proof (Z.pow_le_mono_r 2 53 k ltac:(lia) ltac:(lia)). lia. }
  assert (Hfl : floor_log2 (inject_Z z) = k).
  { apply floor_log2_unique. split.
    - rewrite <- (Zpower_Qpower 2 k) by lia. now rewrite <- Zle_Qle.
    - rewrite <- (Zpower_Qpower 2 (k + 1)) by lia. rewrite <- Zlt_Qlt.
      replace (k + 1) with (Z.succ k) by lia. exact Hk2. }
  apply (binary64_pos_exact _ (z * 2 ^ (52 - k))).
  unfold exponent. rewrite Hfl. replace (Z.max k (-1022)) with k by lia.
  rewrite inject_Z_mult, Zpower_Qpower by lia. change (inject_Z 2) with (2:Q).
  unfold Qdiv. replace (k - 52) with (- (52 - k)) by lia.
  rewrite Qpower_opp, Qinv_involutive. reflexivity.
Qed.

Lemma binary64_int (z : Z) :
  - 2 ^ 53 <= z <= 2 ^ 53 -> (binary64 (inject_Z z) == inject_Z z)%Q.
Proof.
  intros Hz.
  destruct (binary64_cases (inject_Z z)) as [[Hx ->]|[[Hx ->]|[Hx ->]]].
  - now rewrite Hx.
  - apply binary64_pos_int. change 0%Q with (inject_Z 0) in Hx.
    rewrite <- Zlt_Qlt in Hx. lia.
  - change 0%Q with (inject_Z 0) in Hx. rewrite <- Zlt_Qlt in Hx.
    assert (E : (- inject_Z z == inject_Z (- z))%Q) by (now rewrite inject_Z_opp).
    assert (Hp : (binary64_pos (- inject_Z z) == inject_Z (- z))%Q).
    { change (- inject_Z z)%Q with (inject_Z (- z)).
      apply binary64_pos_int. lia. }
    rewrite Hp, inject_Z_opp. ring.
Qed.

(** Rounding to binary64 stays between two integer floats. *)
Lemma binary64_between (x : Q) (lo hi : Z) :
  - 2 ^ 53 <= lo -> hi <= 2 ^ 53 ->
  (inject_Z lo <= x <= inject_Z hi)%Q ->
  (inject_Z lo <= binary64 x <= inject_Z hi)%Q.
Proof.
  intros Hlo Hhi [H1 H2].
  assert (Hle : lo <= hi) by (rewrite Zle_Qle; lra).
  split.
  - apply Qle_trans with (y := binary64 (inject_Z lo));
      [rewrite binary64_int by lia; apply Qle_refl|now apply binary64_le].
  - apply Qle_trans with (y := binary64 (inject_Z hi));
      [now apply binary64_le|rewrite binary64_int by lia; apply Qle_refl].
Qed.

(** The rounding error is at most half the spacing of the binade. *)
Lemma binary64_pos_error (x : Q) (E : Z) :
  (0 < x)%Q -> (x < 2 ^ (E + 1))%Q -> -1022 <= E ->
  (x - 2 ^ (E - 53) <= binary64_pos x <= x + 2 ^ (E - 53))%Q.
Proof.
  intros Hx Hup HE.
  destruct (floor_log2_spec x Hx) as [Hlo _].
  assert (Hfl : floor_log2 x <= E).
  { destruct (Z_le_gt_dec (floor_log2 x) E); [assumption|exfalso].
    pose proof (Qpower2_le (E + 1) (floor_log2 x) ltac:(lia)). lra. }
  assert (He : exponent x <= E) by (unfold exponent; lia).
  rewrite binary64_pos_eq. set (q := ((2:Q) ^ (exponent x - 52))%Q).
  assert (Hq : (0 < q)%Q) by apply Qpower2_pos.
  pose proof (py_round_nearest (x / q)) as [Hn1 Hn2].
  assert (Hxq : (x / q * q == x)%Q).
  { rewrite Qmult_comm. apply Qmult_div_r. intros E0. rewrite E0 in Hq. discriminate. }
  assert (Hhalf : (q * (1 # 2) <= 2 ^ (E - 53))%Q).
  { pose proof (Qpower2_le (exponent x - 53) (E - 53) ltac:(lia)) as H.
    assert (Hs : (q == 2 * 2 ^ (exponent x - 53))%Q).
    { unfold q. rewrite <- Qpower2_succ.
      replace (exponent x - 53 + 1) with (exponent x - 52) by lia. reflexivity. }
    rewrite Hs. lra. }
  set (m := inject_Z (py_round (x / q))) in *.
  assert (H1 : ((x / q - (1 # 2)) * q <= m * q)%Q)
    by (apply Qmult_le_compat_r; lra).
  assert (H2 : (m * q <= (x / q + (1 # 2)) * q)%Q)
    by (apply Qmult_le_compat_r; lra).
  assert (H3 : ((x / q - (1 # 2)) * q == x - q * (1 # 2))%Q)
    by (rewrite <- Hxq at 2; ring).
  assert (H4 : ((x / q + (1 # 2)) * q == x + q * (1 # 2))%Q)
    by (rewrite <- Hxq at 2; ring).
  lra.
Qed.

Lemma binary64_error (x : Q) (E : Z) :
  (0 <= x)%Q -> (x < 2 ^ (E + 1))%Q -> -1022 <= E ->
  (x - 2 ^ (E - 53) <= binary64 x <= x + 2 ^ (E - 53))%Q.
Proof.
  intros Hx Hup HE. pose proof (Qpower2_pos (E - 53)) as Hp.
  destruct (binary64_cases x) as [[H0 ->]|[[H0 ->]|[H0 ->]]].
  - lra.
  - now apply binary64_pos_error.
  - exfalso. lra.
Qed.
End BinaryFloats.

(** ** The snapshot in binary64 *)

Section FloatMetrics.
Import Metrics.

(** In binary64 [cacheHitRate] is the float nearest to [k / 100] for
    an integer [k] between 0 and 100 that is within 1/2 + 2^-45 of
    100 times the ratio of hits to requests; it lies between 0 and 1. *)
Theorem binary64_hit_rate_two_decimals (A : FloatArith) (cs : list Call) :
  (forall x, fl A x = binary64 x) ->
  cs <> [] ->
  let ratio := (inject_Z (hit_count cs) / inject_Z (Z.of_nat (List.length cs)))%Q in
  let rate := cacheHitRate (get_metrics_float A (run init cs)) in
  (exists k : Z,
      rate = binary64 (inject_Z k / 100) /\ 0 <= k <= 100 /\
      (100 * ratio - (1 # 2) - (1 # 2 ^ 45) <= inject_Z k
       <= 100 * ratio + (1 # 2) + (1 # 2 ^ 45))%Q) /\
  (0 <= rate <= 1)%Q.
Proof.
  intros Hfl Hne ratio rate.
  destruct (run_state cs) as (Ht & Hh & _).
  assert (Hn : 0 < Z.of_nat (List.length cs)) by (destruct cs; [congruence|simpl; lia]).
  assert (Hhits : 0 <= hit_count cs <= Z.of_nat (List.length cs)).
  { unfold hit_count. pose proof (filter_length_le c_cache_hit cs). lia. }
  assert (Hnq : (0 < inject_Z (Z.of_nat (List.length cs)))%Q)
    by (apply inject_Z_pos; lia).
  assert (Hr : (0 <= ratio <= 1)%Q).
  { unfold ratio. split.
    - apply Qle_shift_div_l; [assumption|]. rewrite Qmult_0_l.
      change 0%Q with (inject_Z 0). rewrite <- Zle_Qle. lia.
    - apply Qle_shift_div_r; [assumption|]. rewrite Qmult_1_l.
      rewrite <- Zle_Qle. lia. }
  assert (Hrate : rate
            = binary64 (inject_Z (py_round (binary64 (binary64 ratio * 100))) / 100)).
  { unfold rate, get_metrics_float. cbn [cacheHitRate]. rewrite Ht, Hh, !Hfl.
    destruct (Z.ltb_spec 0 (Z.of_nat (List.length cs))); [reflexivity|lia]. }
  clearbody ratio rate.
  set (f1 := binary64 ratio) in *.
  assert (Hf1 : (0 <= f1 <= 1)%Q)
    by (apply (binary64_between ratio 0 1); [lia|lia|exact Hr]).
  assert (He1 : (ratio - (1 # 2 ^ 53) <= f1 <= ratio + (1 # 2 ^ 53))%Q).
  { apply (binary64_error ratio 0); [lra| |lia].
    change ((2:Q) ^ (0 + 1))%Q with 2%Q. lra. }
  set (f2 := binary64 (f1 * 100)) in *.
  assert (Hf2 : (0 <= f2 <= 100)%Q)
    by (apply (binary64_between (f1 * 100) 0 100); [lia|lia|
        change (inject_Z 0) with 0%Q; change (inject_Z 100) with 100%Q; lra]).
  assert (He2 : (f1 * 100 - (1 # 2 ^ 47) <= f2 <= f1 * 100 + (1 # 2 ^ 47))%Q).
  { apply (binary64_error (f1 * 100) 6); [lra| |lia].
    change ((2:Q) ^ (6 + 1))%Q with 128%Q. lra. }
  pose proof (py_round_nearest f2) as Hk.
  assert (Hk0 : 0 <= py_round f2) by (apply py_round_nonneg; lra).
  assert (Hk1 : py_round f2 <= 100)
    by (apply py_round_le_int; change (inject_Z 100) with 100%Q; lra).
  split.
  - exists (py_round f2). split; [exact Hrate|]. split; [lia|].
    change (1 # 2 ^ 53)%Q with (1 # 9007199254740992)%Q in He1.
    change (1 # 2 ^ 47)%Q with (1 # 140737488355328)%Q in He2.
    change (1 # 2 ^ 45)%Q with (1 # 35184372088832)%Q.
    lra.
  - rewrite Hrate.
    apply (binary64_between _ 0 1); [lia|lia|].
    change (inject_Z 0) with 0%Q. change (inject_Z 1) with 1%Q.
    rewrite Zle_Qle in Hk0, Hk1.
    change (inject_Z 0) with 0%Q in Hk0. change (inject_Z 100) with 100%Q in Hk1.
    set (r := inject_Z (py_round f2)) in *.
    assert (Hdiv : (r / 100 == r * (1 # 100))%Q) by reflexivity.
    rewrite Hdiv. lra.
Qed.

(** The sum from left to right of up to 1000 samples that lie between
    two integers of size up to [2^43]. *)
Lemma binary64_sum_bounds (lo hi : Z) (xs : list Q) (acc : Q) (k : nat) :
  - 2 ^ 43 <= lo -> lo <= hi -> hi <= 2 ^ 43 ->
  (k + List.length xs <= 1000)%nat ->
  (forall x, In x xs -> (inject_Z lo <= x <= inject_Z hi)%Q) ->
  (inject_Z (Z.of_nat k * lo) <= acc <= inject_Z (Z.of_nat k * hi))%Q ->
  (inject_Z (Z.of_nat (k + List.length xs) * lo)
   <= fold_left (fun a x => binary64 (a + x)) xs acc
   <= inject_Z (Z.of_nat (k + List.length xs) * hi))%Q.
Proof.
  intros Hlo Hle Hhi. revert acc k.
  induction xs as [|x xs IH]; intros acc k Hlen Hin Hacc.
  - simpl List.length. rewrite Nat.add_0_r. exact Hacc.
  - simpl List.length in *. cbn [fold_left].
    replace (k + S (List.length xs))%nat with (S k + List.length xs)%nat by lia.
    apply IH; [lia|intros y Hy; apply Hin; now right|].
    assert (Hx : (inject_Z lo <= x <= inject_Z hi)%Q) by (apply Hin; now left).
    apply binary64_between; [nia|nia|].
    replace (Z.of_nat (S k) * lo) with (Z.of_nat k * lo + lo) by lia.
    replace (Z.of_nat (S k) * hi) with (Z.of_nat k * hi + hi) by lia.
    rewrite !inject_Z_plus. lra.
Qed.

(** In binary64, with [sum] adding from left to right, the average
    stays within the samples: when every recorded response time lies
    between the integers [lo] and [hi], of size up to [2^43], so does
    [avgResponseTimeMs]. *)
Theorem binary64_average_within_samples (cs : list Call) (lo hi : Z) :
  cs <> [] -> - 2 ^ 43 <= lo -> hi <= 2 ^ 43 ->
  (forall c, In c cs ->
             (inject_Z lo <= c_response_time_ms c <= inject_Z hi)%Q) ->
  lo <= avgResponseTimeMs (get_metrics_float binary64_arith (run init cs)) <= hi.
Proof.
  intros Hne Hlo Hhi Hrange. destruct (run_state cs) as (_ & _ & Hr).
  pose proof (recent_length cs) as Hlen.
  assert (Hle : lo <= hi).
  { destruct cs as [|c cs']; [congruence|].
    destruct (Hrange c (or_introl eq_refl)) as [H1 H2].
    rewrite Zle_Qle. lra. }
  assert (Hin : forall x, In x (recent cs) -> (inject_Z lo <= x <= inject_Z hi)%Q).
  { intros x Hx. unfold recent, samples in Hx.
    apply In_skipn_incl in Hx. apply in_map_iff in Hx.
    destruct Hx as (c & <- & Hc). auto. }
  assert (Hpos : (0 < List.length (recent cs) <= 1000)%nat).
  { rewrite Hlen. destruct cs; [congruence|simpl List.length; lia]. }
  unfold get_metrics_float. cbn [avgResponseTimeMs]. rewrite Hr.
  destruct (recent cs) as [|x xs] eqn:E; [simpl in Hpos; lia|].
  cbn [fl fsum binary64_arith].
  assert (H0 : (inject_Z (Z.of_nat 0 * lo) <= 0 <= inject_Z (Z.of_nat 0 * hi))%Q)
    by (split; apply Qle_refl).
  pose proof (binary64_sum_bounds lo hi (x :: xs) 0 0 Hlo Hle Hhi
                ltac:(lia) Hin H0) as [Hs1 Hs2].
  rewrite Nat.add_0_l in Hs1, Hs2.
  set (s := fold_left (fun a x0 => binary64 (a + x0)) (x :: xs) 0%Q) in *.
  set (n := Z.of_nat (List.length (x :: xs))) in *.
  assert (Hn : (0 < inject_Z n)%Q) by (apply inject_Z_pos; unfold n; lia).
  rewrite inject_Z_mult in Hs1, Hs2.
  assert (Hq : (inject_Z lo <= s / inject_Z n <= inject_Z hi)%Q).
  { split.
    - apply Qle_shift_div_l; [assumption|]. lra.
    - apply Qle_shift_div_r; [assumption|]. lra. }
  pose proof (binary64_between (s / inject_Z n) lo hi ltac:(lia) ltac:(lia) Hq)
    as [Hb1 Hb2].
  split; [now apply py_round_ge_int|now apply py_round_le_int].
Qed.
End FloatMetrics.

(** ** Concrete runs in binary64 *)

Section FloatRuns.
Import Metrics.

Lemma binary64_hit_rate_two_decimals_witness :
  (0 <= cacheHitRate (get_metrics_float binary64_arith (run init three_calls))
   <= 1)%Q.
Proof.
  apply (binary64_hit_rate_two_decimals binary64_arith three_calls).
  - reflexivity.
  - discriminate.
Defined.

Lemma binary64_average_within_samples_witness :
  3 <= avgResponseTimeMs (get_metrics_float binary64_arith (run init three_calls))
    <= 100.
Proof.
  apply binary64_average_within_samples.
  - discriminate.
  - lia.
  - lia.
  - intros c Hc. simpl in Hc.
    destruct Hc as [<-|[<-|[<-|[]]]]; simpl; split; vm_compute; discriminate.
Defined.
End FloatRuns.

(** ** The cleaner: what an accepted text looks like *)

Section CleanerShape.

Lemma list_ascii_app (a b : string) :
  list_ascii_of_string (a ++ b)
  = (list_ascii_of_string a ++ list_ascii_of_string b)%list.
Proof. induction a as [|c a IH]; simpl; [reflexivity|now rewrite IH]. Qed.

Lemma drop_while_head f l c rest : drop_while f l = c :: rest -> f c = false.
Proof.
  induction l as [|x l IH]; simpl; [discriminate|].
  destruct (f x) eqn:E; [assumption|]. intros [= <- _]. assumption.
Qed.

Lemma drop_while_suffix f l : exists pre, l = (pre ++ drop_while f l)%list.
Proof.
  induction l as [|x l IH]; simpl; [now exists []|].
  destruct (f x).
  - destruct IH as [pre Hpre]. exists (x :: pre). simpl. now f_equal.
  - now exists [].
Qed.

Lemma drop_while_keep f l c rest : l = c :: rest -> f c = false -> drop_while f l = l.
Proof. intros -> H. simpl. now rewrite H. Qed.

(** The characters of [s.strip()]. *)
Definition stripped (l : list ascii) : list ascii :=
  rev (drop_while is_space (rev (drop_while is_space l))).

Lemma py_strip_chars (s : string) :
  list_ascii_of_string (py_strip s) = stripped (list_ascii_of_string s).
Proof. unfold py_strip. apply list_ascii_of_string_of_list_ascii. Qed.

(** A stripped text neither starts nor ends with whitespace. *)
Lemma stripped_ends l :
  (forall c rest, stripped l = c :: rest -> is_space c = false) /\
  (forall front c, stripped l = (front ++ [c])%list -> is_space c = false).
Proof.
  unfold stripped. set (L := drop_while is_space l).
  set (R := drop_while is_space (rev L)). split.
  - intros c rest H.
    destruct (drop_while_suffix is_space (rev L)) as [pre Hpre]. fold R in Hpre.
    apply (f_equal (@rev ascii)) in Hpre. rewrite rev_involutive, rev_app_distr in Hpre.
    rewrite H in Hpre. simpl in Hpre.
    apply (drop_while_head is_space l c (rest ++ rev pre)%list). exact Hpre.
  - intros front c H.
    apply (f_equal (@rev ascii)) in H. rewrite rev_involutive, rev_app_distr in H.
    simpl in H. exact (drop_while_head _ _ _ _ H).
Qed.

(** An accepted completion is the cleaned text itself; it is at most
    [max_length] characters long, matches none of the conversational
    patterns, and neither starts nor ends with whitespace.  A rejected
    one is empty. *)
Theorem clean_completion_accepted_shape text max_length cleaned :
  (clean_completion text max_length = (cleaned, None) ->
   cleaned = strip_fences text /\
   len cleaned <= max_length /\
   (forall p, In p CONVERSATIONAL_PATTERNS ->
              re_search (compiled p) cleaned = false) /\
   (forall c rest, list_ascii_of_string cleaned = c :: rest ->
                   is_space c = false) /\
   (forall front c, list_ascii_of_string cleaned = (front ++ [c])%list ->
                    is_space c = false)) /\
  (forall reason,
      clean_completion text max_length = (cleaned, Some reason) ->
      cleaned = "").
Proof.
  split.
  - unfold clean_completion.
    destruct (find _ CONVERSATIONAL_PATTERNS) eqn:Ef; [discriminate|].
    destruct (Z.ltb_spec max_length (len (strip_fences text))); [discriminate|].
    intros [= <-]. split; [reflexivity|]. split; [assumption|].
    split; [intros p Hp; exact (find_none _ _ Ef p Hp)|].
    unfold strip_fences. rewrite py_strip_chars. apply stripped_ends.
  - intros reason H. now destruct (clean_completion_rejected _ _ _ _ H).
Qed.

Lemma clean_completion_accepted_shape_witness :
  len "hello world" <= 200 /\
  forall p, In p CONVERSATIONAL_PATTERNS ->
            re_search (compiled p) "hello world" = false.
Proof.
  destruct (clean_completion_accepted_shape "   hello world   " 200 "hello world")
    as [H _].
  destruct (H eq_refl) as (_ & Hlen & Hpat & _). split; assumption.
Defined.

(** Text without a backtick is only trimmed. *)
Theorem clean_modification_without_backticks text :
  (forall c, In c (list_ascii_of_string text) -> c <> "`"%char) ->
  clean_modification text = py_strip text.
Proof.
  intros Hno. unfold clean_modification, strip_fences.
  assert (Hopen : sub_open_fence text = text).
  { unfold sub_open_fence.
    destruct (list_ascii_of_string text) as [|c l] eqn:E; [reflexivity|].
    destruct (Ascii.eqb_spec c "`"%char) as [->|Hc].
    - exfalso. apply (Hno "`"%char); [now left|reflexivity].
    - destruct c as [[] [] [] [] [] [] [] []]; try reflexivity.
      exfalso. apply Hc. reflexivity. }
  rewrite Hopen.
  assert (Hclose : sub_close_fence text = text).
  { unfold sub_close_fence.
    assert (Hrev : forall c, In c (rev (list_ascii_of_string text)) -> c <> "`"%char)
      by (intros c Hc; apply Hno; now apply in_rev).
    destruct (rev (list_ascii_of_string text)) as [|c l] eqn:E; [reflexivity|].
    assert (Hc : c <> "`"%char) by (apply Hrev; now left).
    destruct l as [|d l].
    - destruct c as [[] [] [] [] [] [] [] []]; reflexivity.
    - assert (Hd : d <> "`"%char) by (apply Hrev; right; now left).
      destruct c as [[] [] [] [] [] [] [] []];
        try (exfalso; apply Hc; reflexivity);
        destruct d as [[] [] [] [] [] [] [] []];
        try reflexivity; exfalso; apply Hd; reflexivity. }
  now rewrite Hclose.
Qed.

Lemma clean_modification_without_backticks_witness :
  clean_modification "  return x + 1  " = py_strip "  return x + 1  ".
Proof.
  apply clean_modification_without_backticks.
  intros c Hc. simpl in Hc.
  repeat (destruct Hc as [<-|Hc]; [discriminate|]). destruct Hc.
Defined.

Lemma drop_while_word_tag (tag rest : list ascii) :
  forallb is_word tag = true ->
  drop_while is_word (tag ++ LF :: rest)%list = LF :: rest.
Proof.
  induction tag as [|c tag IH]; simpl; [reflexivity|].
  intros H. apply andb_true_iff in H. destruct H as [-> H]. auto.
Qed.

(** A fenced block is unwrapped: for a language tag made of word
    characters and a body that neither starts nor ends with
    whitespace, cleaning the body put between an opening fence line
    and a closing fence line gives back the body. *)
Theorem clean_modification_unwraps_fence tag body :
  forallb is_word (list_ascii_of_string tag) = true ->
  py_strip body = body ->
  clean_modification ("```" ++ tag ++ nl ++ body ++ nl ++ "```") = body.
Proof.
  intros Htag Hbody. unfold clean_modification, strip_fences.
  assert (Hopen : sub_open_fence ("```" ++ tag ++ nl ++ body ++ nl ++ "```")
                  = body ++ nl ++ "```").
  { unfold sub_open_fence. simpl list_ascii_of_string.
    rewrite list_ascii_app. simpl list_ascii_of_string.
    rewrite (drop_while_word_tag _ _ Htag). simpl.
    apply string_of_list_ascii_of_string. }
  rewrite Hopen.
  assert (Hclose : sub_close_fence (body ++ nl ++ "```") = body).
  { unfold sub_close_fence. rewrite list_ascii_app. simpl list_ascii_of_string.
    rewrite rev_app_distr. simpl. rewrite rev_involutive.
    apply string_of_list_ascii_of_string. }
  now rewrite Hclose.
Qed.

Lemma clean_modification_unwraps_fence_witness :
  clean_modification ("```" ++ "typescript" ++ nl ++ "const x = 42;" ++ nl ++ "```")
  = "const x = 42;".
Proof.
  apply clean_modification_unwraps_fence; reflexivity.
Defined.

Lemma lower_idempotent (c : ascii) : lower (lower c) = lower c.
Proof.
  destruct c as [[] [] [] [] [] [] [] []]; reflexivity.
Qed.

(** Matching sees the text up to the case of its letters only. *)
Lemma re_match_case r :
  forall bos l l' (k k' : bool -> list ascii -> bool),
    map lower l = map lower l' ->
    (forall b m m', map lower m = map lower m' -> k b m = k' b m') ->
    re_match r bos l k = re_match r bos l' k'.
Proof.
  induction r as [| |c|r1 IH1 r2 IH2|r1 IH1 r2 IH2]; intros bos l l' k k' Hl Hk;
    simpl.
  - now apply Hk.
  - destruct bos; [now apply Hk|reflexivity].
  - destruct l as [|a l], l' as [|a' l']; try discriminate; [reflexivity|].
    simpl in Hl. injection Hl as Ha Hl. rewrite Ha.
    destruct (Ascii.eqb (lower a') (lower c)); [now apply Hk|reflexivity].
  - apply IH1; [assumption|]. intros b m m' Hm. now apply IH2.
  - f_equal; [apply IH1|apply IH2]; assumption.
Qed.

Lemma re_search_from_case r bos l :
  forall l', map lower l = map lower l' ->
             re_search_from r bos l = re_search_from r bos l'.
Proof.
  revert bos. induction l as [|a l IH]; intros bos [|a' l'] H; try discriminate.
  - reflexivity.
  - simpl in H. injection H as Ha Hl. simpl. f_equal.
    + apply re_match_case; [simpl; now f_equal|reflexivity].
    + now apply IH.
Qed.

(** The conversational filter ignores case: two cleaned texts that
    differ only in the case of their letters are matched by the same
    patterns, so the same pattern, if any, rejects both. *)
Theorem conversational_filter_ignores_case (s s' : string) :
  map lower (list_ascii_of_string s) = map lower (list_ascii_of_string s') ->
  (forall p, re_search (compiled p) s = re_search (compiled p) s') /\
  find (fun p => re_search (compiled p) s) CONVERSATIONAL_PATTERNS
  = find (fun p => re_search (compiled p) s') CONVERSATIONAL_PATTERNS.
Proof.
  intros H.
  assert (Hp : forall p, re_search (compiled p) s = re_search (compiled p) s')
    by (intros p; unfold re_search; now apply re_search_from_case).
  split; [assumption|].
  induction CONVERSATIONAL_PATTERNS as [|p ps IH]; simpl; [reflexivity|].
  rewrite Hp. destruct (re_search (compiled p) s'); [reflexivity|assumption].
Qed.

Lemma conversational_filter_ignores_case_witness :
  re_search (compiled (mkPattern "let me" (lit "let me"))) "LET ME explain"
  = re_search (compiled (mkPattern "let me" (lit "let me"))) "let me EXPLAIN".
Proof.
  apply (proj1 (conversational_filter_ignores_case
                  "LET ME explain" "let me EXPLAIN" eq_refl)).
Defined.
End CleanerShape.

(** ** The pipelines: hits, stored completions, counters *)

Section PipelinePaths.
Variable env : Env.

Lemma cache_get_hit req w cached w1 :
  cache_get env req w = (Ok (Some cached), w1) ->
  w1 = mkWorld (completion_cache w) (metrics w) (S (clock_reads w))
               (backend_calls w) /\
  Cache.get (completion_cache w) req (clock env (clock_reads w))
    = (Some cached, completion_cache w).
Proof.
  unfold cache_get.
  destruct (dict_lookup _ _) as [entry|] eqn:El; [|discriminate].
  unfold Cache.get. rewrite El.
  destruct (Qltb _ _); simpl; [discriminate|].
  intros [= <- <-]. split; reflexivity.
Qed.

Lemma cache_get_settings req w r w1 :
  cache_get env req w = (r, w1) ->
  Cache._ttl_ms (completion_cache w1) = Cache._ttl_ms (completion_cache w) /\
  Cache._max_size (completion_cache w1) = Cache._max_size (completion_cache w).
Proof.
  unfold cache_get. destruct (dict_lookup _ _); intros [= <- <-]; simpl; auto.
  apply CacheFacts.get_fields.
Qed.

Lemma completion_hit_recorded req request_id w cached w1 :
  cache_get env req (after_tick w) = (Ok (Some cached), w1) ->
  exists w',
    snd (get_completion env req request_id w) = w' /\
    Metrics._total_requests (metrics w') = Metrics._total_requests (metrics w) + 1 /\
    Metrics._error_count (metrics w') = Metrics._error_count (metrics w).
Proof.
  intros Hhit. destruct (cache_get_hit _ _ _ _ Hhit) as [-> _].
  eexists. split.
  - unfold get_completion, bind at 1. unfold time_ms at 1.
    unfold bind at 1. fold (after_tick w). rewrite Hhit. reflexivity.
  - simpl. split; reflexivity.
Qed.

(** A cache hit answers from the cache alone: the envelope carries
    the cached completion under the caller's request id, the backend
    is not invoked, the cache is left as it was, and the request is
    recorded as a hit and not as an error. *)
Theorem completion_cache_hit_skips_backend req request_id w cached w1 :
  cache_get env req (after_tick w) = (Ok (Some cached), w1) ->
  exists w',
    get_completion env req request_id w
      = (Ok (mkCompletionResponse (completion cached) (error cached) request_id),
         w') /\
    backend_calls w' = backend_calls w /\
    completion_cache w' = completion_cache w /\
    Metrics._total_requests (metrics w') = Metrics._total_requests (metrics w) + 1 /\
    Metrics._cache_hits (metrics w') = Metrics._cache_hits (metrics w) + 1 /\
    Metrics._error_count (metrics w') = Metrics._error_count (metrics w).
Proof.
  intros Hhit. destruct (cache_get_hit _ _ _ _ Hhit) as [-> _].
  eexists. split.
  - unfold get_completion, bind at 1. unfold time_ms at 1.
    unfold bind at 1. fold (after_tick w). rewrite Hhit. reflexivity.
  - simpl. repeat split; reflexivity.
Qed.

(** The world after a completion was accepted: the clock is read for
    the elapsed time, the response is stored if it can be, and the
    request is recorded. *)
Definition accepted_world (w2 : World) (req : CompletionRequest)
           (resp : CompletionResponse) (start_time : Q) : World :=
  let w3 := snd (cache_set env req resp (after_tick w2)) in
  mkWorld (completion_cache w3)
          (Metrics.record_request (metrics w3) (completion_model req)
             (clock env (clock_reads w2) - start_time)%Q false false)
          (clock_reads w3) (backend_calls w3).

Lemma get_completion_accepted req request_id w w1 text w2 cleaned :
  cache_get env req (after_tick w) = (Ok None, w1) ->
  completion_backend env req w1 = (Ok text, w2) ->
  clean_completion text (if multiline req then 1000 else 200) = (cleaned, None) ->
  get_completion env req request_id w
  = (Ok (mkCompletionResponse cleaned None request_id),
     accepted_world w2 req (mkCompletionResponse cleaned None request_id)
                    (clock env (clock_reads w))).
Proof.
  intros Hmiss Hback Hclean.
  rewrite (get_completion_miss _ _ _ _ _ Hmiss), try_failure_handlers.
  unfold bind at 1. fold (completion_backend env req). rewrite Hback.
  cbv zeta. rewrite Hclean. simpl snd. simpl fst. simpl opt_str_truthy. cbv iota.
  unfold bind at 1. unfold time_ms at 1. fold (after_tick w2).
  unfold accepted_world, bind, cache_set, record_request, ret.
  destruct (Cache.not_cacheable _); reflexivity.
Qed.


(** Every request that passes admission is recorded once: whatever
    path a pipeline takes, [totalRequests] grows by exactly one and
    [errorCount] by at most one. *)
Theorem pipelines_record_each_request_once :
  (forall req request_id w,
      let m' := metrics (snd (get_completion env req request_id w)) in
      Metrics._total_requests m' = Metrics._total_requests (metrics w) + 1 /\
      Metrics._error_count (metrics w) <= Metrics._error_count m'
        <= Metrics._error_count (metrics w) + 1) /\
  (forall req request_id w,
      let m' := metrics (snd (get_modification env req request_id w)) in
      Metrics._total_requests m' = Metrics._total_requests (metrics w) + 1 /\
      Metrics._error_count (metrics w) <= Metrics._error_count m'
        <= Metrics._error_count (metrics w) + 1).
Proof.
  split.
  - intros req request_id w.
    destruct (cache_get env req (after_tick w)) as [[[cached|]|e] w1] eqn:Hget.
    + destruct (completion_hit_recorded req request_id w cached w1 Hget)
        as (w' & -> & Ht & He). simpl. lia.
    + destruct (cache_get_frame _ _ _ _ _ Hget) as [Hm1 _]. simpl in Hm1.
      pose proof (get_claude_completion_frame env
                    (completion_prompt env req)
                    (get_system_prompt env (multiline req))
                    (completion_model req) None w1) as Hframe.
      fold (completion_backend env req) in Hframe.
      rewrite (get_completion_miss _ _ _ _ _ Hget), try_failure_handlers.
      unfold bind at 1. fold (completion_backend env req).
      destruct (completion_backend env req w1) as [[text|e] w2].
      * simpl in Hframe. destruct Hframe as (_ & Hm & _).
        cbv zeta. destruct (opt_str_truthy _).
        -- simpl. rewrite Hm, Hm1. lia.
        -- unfold bind, time_ms, cache_set, record_request, ret. simpl.
           destruct (Cache.not_cacheable _); simpl; rewrite Hm, Hm1; lia.
      * simpl in Hframe. destruct Hframe as (_ & Hm & _).
        simpl. rewrite Hm, Hm1. lia.
    + exfalso. unfold cache_get in Hget.
      destruct (dict_lookup _ _); discriminate.
  - intros req request_id w.
    pose proof (get_claude_completion_frame env
                  (get_modify_user_prompt env (m_language req) (m_code req)
                     (m_instruction req) (str_or (m_prefix req) "")
                     (str_or (m_suffix req) ""))
                  (get_modify_system_prompt env) (modification_model req) None
                  (after_tick w)) as Hframe.
    fold (modification_backend env req) in Hframe.
    rewrite get_modification_unfold, try_failure_handlers.
    unfold bind at 1. fold (modification_backend env req).
    destruct (modification_backend env req (after_tick w)) as [[text|e] w2];
      simpl in Hframe; destruct Hframe as (_ & Hm & _); simpl; rewrite Hm;
      simpl; lia.
Qed.
End PipelinePaths.

Section PipelineEdges.
Variable env : Env.

(** When COMPLETION_TIMEOUT_MS is set to text that is not an integer,
    [get_timeout] raises before the backend is invoked: every request
    that reaches the backend stage comes back as an error envelope
    carrying the message of the [ValueError], and no invocation is
    made. *)
Theorem malformed_timeout_setting_fails_requests s :
  environ_COMPLETION_TIMEOUT_MS env = Some s -> s <> "" -> py_int s = None ->
  let msg := "invalid literal for int() with base 10: " ++ py_repr env s in
  (forall req request_id w w1,
      cache_get env req (after_tick w) = (Ok None, w1) ->
      exists w',
        get_completion env req request_id w
          = (Ok (mkCompletionResponse "" (Some msg) request_id), w') /\
        backend_calls w' = backend_calls w) /\
  (forall req request_id w,
      exists w',
        get_modification env req request_id w
          = (Ok (mkModifyResponse "" (Some msg) request_id), w') /\
        backend_calls w' = backend_calls w).
Proof.
  intros Henv Hs Hint msg.
  assert (Hres : forall model,
            resolve_timeout env model None = Raise (mkExn Exception_ msg None)).
  { intros model. unfold resolve_timeout, get_timeout. rewrite Henv.
    destruct s; [congruence|]. simpl str_truthy. cbv iota. now rewrite Hint. }
  assert (Hmsg : failure_message (mkExn Exception_ msg None) = msg) by reflexivity.
  split.
  - intros req request_id w w1 Hmiss.
    pose proof (get_claude_completion_run env (completion_prompt env req)
                  (get_system_prompt env (multiline req))
                  (completion_model req) None w1) as Hrun.
    rewrite Hres in Hrun. fold (completion_backend env req) in Hrun.
    eexists. split.
    + rewrite (get_completion_miss _ _ _ _ _ Hmiss), try_failure_handlers.
      unfold bind at 1. fold (completion_backend env req). rewrite Hrun.
      rewrite Hmsg. reflexivity.
    + simpl. now destruct (cache_get_frame _ _ _ _ _ Hmiss) as [_ ->].
  - intros req request_id w.
    match goal with |- context [get_modification env req request_id w] =>
      pose proof (get_claude_completion_run env
        (get_modify_user_prompt env (m_language req) (m_code req)
           (m_instruction req) (str_or (m_prefix req) "")
           (str_or (m_suffix req) ""))
        (get_modify_system_prompt env) (modification_model req) None
        (after_tick w)) as Hrun
    end.
    rewrite Hres in Hrun. fold (modification_backend env req) in Hrun.
    eexists. split.
    + rewrite get_modification_unfold, try_failure_handlers.
      unfold bind at 1. fold (modification_backend env req). rewrite Hrun.
      rewrite Hmsg. reflexivity.
    + reflexivity.
Qed.

(** The modification pipeline never touches the completion cache, and
    on a backend answer it returns the cleaned text with no error. *)
Theorem modification_bypasses_cache :
  (forall req request_id w,
      completion_cache (snd (get_modification env req request_id w))
      = completion_cache w) /\
  (forall req request_id w text w2,
      modification_backend env req (after_tick w) = (Ok text, w2) ->
      fst (get_modification env req request_id w)
      = Ok (mkModifyResponse (clean_modification text) None request_id)).
Proof.
  split.
  - intros req request_id w.
    pose proof (get_claude_completion_frame env
                  (get_modify_user_prompt env (m_language req) (m_code req)
                     (m_instruction req) (str_or (m_prefix req) "")
                     (str_or (m_suffix req) ""))
                  (get_modify_system_prompt env) (modification_model req) None
                  (after_tick w)) as Hframe.
    fold (modification_backend env req) in Hframe.
    rewrite get_modification_unfold, try_failure_handlers.
    unfold bind at 1. fold (modification_backend env req).
    destruct (modification_backend env req (after_tick w)) as [[text|e] w2];
      simpl in Hframe; destruct Hframe as (Hc & _); simpl; exact Hc.
  - intros req request_id w text w2 Hback.
    rewrite get_modification_unfold, try_failure_handlers.
    unfold bind at 1. fold (modification_backend env req). rewrite Hback.
    reflexivity.
Qed.
End PipelineEdges.

Section PipelineRoundTrip.
Variable env : Env.

(** The completion pipeline on a hit. *)
Lemma get_completion_hit req request_id w cached w1 :
  cache_get env req (after_tick w) = (Ok (Some cached), w1) ->
  get_completion env req request_id w
  = (Ok (mkCompletionResponse (completion cached) (error cached) request_id),
     mkWorld (completion_cache w1)
             (Metrics.record_request (metrics w1) (completion_model req)
                (clock env (clock_reads w1) - clock env (clock_reads w))%Q
                true false)
             (S (clock_reads w1)) (backend_calls w1)).
Proof.
  intros Hhit. unfold get_completion, bind at 1. unfold time_ms at 1.
  unfold bind at 1. fold (after_tick w). rewrite Hhit. reflexivity.
Qed.

(** A completion that was generated is served from the cache the next
    time: after a request that missed the cache, reached the backend
    and was accepted with a non-empty completion, the same request
    made next, with its lookup no more than [ttl_ms] after the store,
    returns the same completion without invoking the backend. *)
Theorem completion_is_served_from_cache_next_time
        req request_id next_id w w1 text w2 cleaned :
  cache_get env req (after_tick w) = (Ok None, w1) ->
  completion_backend env req w1 = (Ok text, w2) ->
  clean_completion text (if multiline req then 1000 else 200) = (cleaned, None) ->
  cleaned <> "" ->
  (clock env (S (S (S (clock_reads w2)))) - clock env (S (clock_reads w2))
     <= inject_Z (Cache._ttl_ms (completion_cache w)))%Q ->
  exists w3 w4,
    get_completion env req request_id w
      = (Ok (mkCompletionResponse cleaned None request_id), w3) /\
    get_completion env req next_id w3
      = (Ok (mkCompletionResponse cleaned None next_id), w4) /\
    backend_calls w4 = backend_calls w3.
Proof.
  intros Hmiss Hback Hclean Hne Hfresh.
  set (resp := mkCompletionResponse cleaned None request_id).
  set (w3 := accepted_world env w2 req resp (clock env (clock_reads w))).
  assert (Hcacheable : Cache.not_cacheable resp = false).
  { unfold Cache.not_cacheable, resp; simpl. destruct cleaned; [congruence|reflexivity]. }
  pose proof (get_claude_completion_frame env
                (completion_prompt env req) (get_system_prompt env (multiline req))
                (completion_model req) None w1) as Hframe.
  fold (completion_backend env req) in Hframe. rewrite Hback in Hframe.
  simpl in Hframe. destruct Hframe as (Hc2 & _ & _).
  destruct (cache_get_settings env _ _ _ _ Hmiss) as [Httl1 _]. simpl in Httl1.
  assert (Hcache3 : completion_cache w3
                    = Cache.set (completion_cache w2) req resp
                                (clock env (S (clock_reads w2)))).
  { unfold w3, accepted_world, cache_set. rewrite Hcacheable. reflexivity. }
  assert (Hreads3 : clock_reads w3 = S (S (clock_reads w2))).
  { unfold w3, accepted_world, cache_set. rewrite Hcacheable. reflexivity. }
  assert (Httl3 : Cache._ttl_ms (completion_cache w3)
                  = Cache._ttl_ms (completion_cache w)).
  { rewrite Hcache3. destruct (CacheFacts.set_fields (completion_cache w2) req resp
                                 (clock env (S (clock_reads w2)))) as [-> _].
    now rewrite Hc2. }
  assert (Hlook : dict_lookup (Cache._cache (completion_cache w3))
                              (Cache._hash_key req)
                  = Some (Cache.mkCacheEntry resp (clock env (S (clock_reads w2))))).
  { rewrite Hcache3. unfold Cache.set. rewrite Hcacheable. simpl.
    apply dict_lookup_store_eq. }
  assert (Hfirst : get_completion env req request_id w = (Ok resp, w3))
    by apply (get_completion_accepted env _ _ _ _ _ _ _ Hmiss Hback Hclean).
  clearbody w3.
  assert (Hhit : cache_get env req (after_tick w3)
                 = (Ok (Some resp),
                    mkWorld (completion_cache w3) (metrics w3)
                            (S (S (clock_reads w3))) (backend_calls w3))).
  { unfold cache_get, after_tick.
    cbn [completion_cache metrics clock_reads backend_calls]. rewrite Hlook.
    unfold Cache.get. rewrite Hlook. rewrite Hreads3, Httl3.
    cbn [Cache.timestamp Cache.response fst snd].
    destruct (Qltb _ _) eqn:E; [|reflexivity].
    apply Qltb_true in E. lra. }
  exists w3. eexists. split; [|split].
  - exact Hfirst.
  - rewrite (get_completion_hit _ _ _ _ _ Hhit). reflexivity.
  - reflexivity.
Qed.
End PipelineRoundTrip.

(** ** Concrete runs of the pipelines *)

Section MoreRuns.

Definition stored_42 : CompletionResponse := mkCompletionResponse "42" None None.

Definition warm_world : World :=
  mkWorld (Cache.set (Cache.init 30000 100) a_request stored_42 0%Q)
          Metrics.init 0 [].

Definition a_modification : ModifyRequest :=
  mkModifyRequest "x = 1" "rename x to y" "python" None "opus" "" "".

Definition haiku_call : BackendCall :=
  mkBackendCall "const x = " "system" "haiku" 1 5%Q.

(** An environment whose [repr] puts its argument between single
    quotes, as Python does for text without quotes or escapes. *)
Definition quoting_env (environ : option string) : Env :=
  mkEnv (fun k => inject_Z (Z.of_nat k)) environ (fun _ _ => Ok "42")
        (fun _ => "system") (fun _ _ p _ => p)
        "modify" (fun _ c _ _ _ => c)
        (fun _ => "5.0") (fun s => "'" ++ s ++ "'").

Lemma completion_cache_hit_skips_backend_witness :
  fst (get_completion (run_env None (Ok "unused")) a_request (Some "id") warm_world)
  = Ok (mkCompletionResponse "42" None (Some "id")).
Proof.
  destruct (completion_cache_hit_skips_backend (run_env None (Ok "unused"))
              a_request (Some "id") warm_world stored_42
              (mkWorld (completion_cache warm_world) Metrics.init 2 []) eq_refl)
    as (w' & Heq & _).
  rewrite Heq. reflexivity.
Defined.


Lemma malformed_timeout_setting_fails_requests_witness :
  exists w',
    get_completion (quoting_env (Some "5s")) a_request None fresh_world
      = (Ok (mkCompletionResponse ""
               (Some "invalid literal for int() with base 10: '5s'") None), w') /\
    backend_calls w' = [].
Proof.
  assert (Hs : "5s" <> "") by discriminate.
  destruct (malformed_timeout_setting_fails_requests
              (quoting_env (Some "5s")) "5s" eq_refl Hs eq_refl)
    as [H _].
  exact (H a_request None fresh_world (after_tick fresh_world) eq_refl).
Defined.

Lemma modification_bypasses_cache_witness :
  fst (get_modification (run_env None (Ok "  y = 1  ")) a_modification None
         warm_world)
  = Ok (mkModifyResponse "y = 1" None None).
Proof.
  apply (proj2 (modification_bypasses_cache (run_env None (Ok "  y = 1  ")))
           a_modification None warm_world "  y = 1  "
           (invoked (after_tick warm_world)
              (mkBackendCall "x = 1" "modify" "opus" 1 30%Q))).
  reflexivity.
Defined.

Lemma completion_is_served_from_cache_next_time_witness :
  exists w3 w4,
    get_completion (run_env None (Ok "42")) a_request (Some "a") fresh_world
      = (Ok (mkCompletionResponse "42" None (Some "a")), w3) /\
    get_completion (run_env None (Ok "42")) a_request (Some "b") w3
      = (Ok (mkCompletionResponse "42" None (Some "b")), w4) /\
    backend_calls w4 = backend_calls w3.
Proof.
  apply (completion_is_served_from_cache_next_time (run_env None (Ok "42"))
           a_request (Some "a") (Some "b") fresh_world (after_tick fresh_world)
           "42" (invoked (after_tick fresh_world) haiku_call) "42").
  - reflexivity.
  - reflexivity.
  - reflexivity.
  - discriminate.
  - vm_compute. discriminate.
Defined.
End MoreRuns.

(** ** The endpoints *)

Section Endpoints.
Variable env : Env.

(** [format_duration] splits a number of seconds into hours, minutes
    below 60 and seconds below 60 that add up to it, and prints them
    as ["{h}h {m}m {s}s"]. *)
Theorem format_duration_parts (seconds : Z) :
  exists hours minutes secs,
    format_duration seconds
      = str_of_int hours ++ "h " ++ str_of_int minutes ++ "m "
        ++ str_of_int secs ++ "s" /\
    hours * 3600 + minutes * 60 + secs = seconds /\
    0 <= minutes < 60 /\ 0 <= secs < 60 /\
    (0 <= seconds -> 0 <= hours).
Proof.
  exists (seconds / 3600), ((seconds mod 3600) / 60), (seconds mod 60).
  split; [reflexivity|].
  pose proof (Z.mod_pos_bound seconds 3600 ltac:(lia)) as H1.
  pose proof (Z.mod_pos_bound seconds 60 ltac:(lia)) as H2.
  pose proof (Z.div_mod seconds 3600 ltac:(lia)) as H3.
  pose proof (Z.div_mod (seconds mod 3600) 60 ltac:(lia)) as H4.
  assert (H5 : (seconds mod 3600) mod 60 = seconds mod 60).
  { apply Z.mod_mod_divide. exists 60. reflexivity. }
  split; [lia|]. split.
  - split; [apply Z.div_pos; lia|apply Z.div_lt_upper_bound; lia].
  - split; [assumption|]. intros Hs. apply Z.div_pos; lia.
Qed.

Lemma check_rate_limit_world s :
  completion_cache (world (snd (check_rate_limit env s)))
    = completion_cache (world s) /\
  metrics (world (snd (check_rate_limit env s))) = metrics (world s) /\
  backend_calls (world (snd (check_rate_limit env s))) = backend_calls (world s).
Proof.
  unfold check_rate_limit.
  destruct (fst (RateLimiter.is_allowed _ _)); [simpl; auto|].
  destruct (RateLimiter._requests _); simpl; auto.
Qed.

(** A request that the limiter denies is answered with the 429 body
    ["Too many requests"], empty text and the retry delay in the
    [Retry-After] header, and goes no further: the cache, the metrics
    and the log of backend invocations are left as they were.  Both
    endpoints behave so. *)
Theorem denied_request_touches_nothing s retry_after s1 :
  check_rate_limit env s = (Some retry_after, s1) ->
  (forall request_id request,
      inline env request_id request s
      = (Ok (TooManyRequests "Too many requests" "" request_id
               (str_of_int retry_after)), s1)) /\
  (forall request_id request,
      transform env request_id request s
      = (Ok (TooManyRequests "Too many requests" "" request_id
               (str_of_int retry_after)), s1)) /\
  completion_cache (world s1) = completion_cache (world s) /\
  metrics (world s1) = metrics (world s) /\
  backend_calls (world s1) = backend_calls (world s) /\
  0 <= retry_after.
Proof.
  intros Hdeny. pose proof (check_rate_limit_world s) as Hw.
  rewrite Hdeny in Hw. simpl in Hw. destruct Hw as (Hc & Hm & Hb).
  split; [|split; [|split; [|split; [|split]]]]; try assumption.
  - intros request_id request. unfold inline. now rewrite Hdeny.
  - intros request_id request. unfold transform. now rewrite Hdeny.
  - unfold check_rate_limit in Hdeny.
    destruct (fst (RateLimiter.is_allowed _ _)); [discriminate|].
    destruct (RateLimiter._requests _) eqn:E.
    + injection Hdeny as <- _. lia.
    + injection Hdeny as <- _. unfold RateLimiter.get_retry_after_seconds.
      rewrite E. lia.
Qed.

(** A request that the limiter admits is answered with the envelope
    of its pipeline, run on the world the admission left: neither
    endpoint raises, and the identifier drawn for the request is the
    one handed to the pipeline. *)
Theorem admitted_request_is_served s s1 request_id :
  check_rate_limit env s = (None, s1) ->
  (forall request, exists result w2,
      get_completion env request (Some request_id) (world s1) = (Ok result, w2) /\
      inline env request_id request s
        = (Ok (Served result), mkServer (rate_limiter s1) w2)) /\
  (forall request, exists result w2,
      get_modification env request (Some request_id) (world s1) = (Ok result, w2) /\
      transform env request_id request s
        = (Ok (Served result), mkServer (rate_limiter s1) w2)).
Proof.
  intros Hadmit. split; intros request.
  - destruct (get_completion_total env request (Some request_id) (world s1))
      as (result & w2 & Hrun).
    exists result, w2. split; [exact Hrun|].
    unfold inline. rewrite Hadmit, Hrun. reflexivity.
  - destruct (get_modification_total env request (Some request_id) (world s1))
      as (result & w2 & Hrun).
    exists result, w2. split; [exact Hrun|].
    unfold transform. rewrite Hadmit, Hrun. reflexivity.
Qed.
End Endpoints.

(** ** Concrete runs of the endpoints *)

Section EndpointRuns.
Definition an_env : Env := run_env None (Ok "42").
Definition a_server : Server := mkServer (RateLimiter.init 1000 1) fresh_world.

Lemma denied_request_touches_nothing_witness :
  let s := snd (check_rate_limit an_env a_server) in
  exists s1,
    inline an_env "id-2" a_request s
    = (Ok (TooManyRequests "Too many requests" "" "id-2" "1"), s1) /\
    backend_calls (world s1) = [].
Proof.
  intros s.
  destruct (denied_request_touches_nothing an_env s 1
              (snd (check_rate_limit an_env s))) as (Hin & _ & _ & _ & Hb & _).
  - vm_compute. reflexivity.
  - eexists. split; [apply Hin|]. rewrite Hb. reflexivity.
Defined.

Lemma admitted_request_is_served_witness :
  exists result s2,
    inline an_env "id-1" a_request a_server = (Ok (Served result), s2).
Proof.
  destruct (admitted_request_is_served an_env a_server
              (snd (check_rate_limit an_env a_server)) "id-1") as [Hin _].
  - vm_compute. reflexivity.
  - destruct (Hin a_request) as (result & w2 & _ & H).
    exists result. eexists. exact H.
Defined.
End EndpointRuns.
